(** * Zetaris: the cross-chain transfer engine and the auction tracker

    A shallow embedding of
      - [src/bridge/WormholeBridge.ts]   (class [WormholeBridgeService]),
      - [src/utils/EventEmitter.ts]      (class [EventEmitter]),
      - [src/fusion/FusionAuctionTracker.ts] (class [FusionAuctionTracker]),
      - [src/utils/logger.ts], as the two services import it,
    followed by the properties proved about them.

    JavaScript values that matter to the code are modelled as they behave
    at run time: reading a [Uint8Array] past its end gives [undefined],
    [<<] and [|] work on signed 32-bit integers, [BigInt] of a hex literal
    without digits throws.  A [Map] is a [gmap]; effects (network requests,
    timers, emitted events) are recorded in the state that the operations
    pass along. *)

From Stdlib Require Import ZArith NArith List String Ascii Lia.
From Stdlib.Strings Require Byte.
From stdpp Require Import base numbers option list strings gmap pretty.

Local Open Scope Z_scope.

(* ===================================================================== *)
(** * Part I: definitions                                                 *)
(* ===================================================================== *)

(** ** JavaScript primitives used by the three classes *)
Module JS.

(** A number-or-undefined value, as an element read or a bit operation
    yields it. *)
Inductive value : Type :=
| undefined
| num (z : Z).

(** Exceptions, by constructor, with their message. *)
Inductive error : Type :=
| Error (msg : string)
| SyntaxError (msg : string)
| TypeError (msg : string).

(** A call either returns or throws. *)
Inductive outcome (A : Type) : Type :=
| Returned (a : A)
| Thrown (e : error).
Arguments Returned {A} a.
Arguments Thrown {A} e.

(** Sequencing of calls that may throw ([await] included): the first
    exception ends the sequence.  Written [x ← o; k]. *)
#[export] Instance outcome_ret : MRet outcome := @Returned.
#[export] Instance outcome_bind : MBind outcome := λ A B k o,
  match o with
  | Returned a => k a
  | Thrown e => Thrown e
  end.

(** [Uint8Array]: a sequence of bytes. *)
Abbreviation Uint8Array := (list Byte.byte).

Definition byteZ (b : Byte.byte) : Z := Z.of_N (Byte.to_N b).

(** [a[i]]: the element, or [undefined] out of range. *)
Definition get (a : Uint8Array) (i : nat) : value :=
  match a !! i with
  | Some b => num (byteZ b)
  | None => undefined
  end.

(** [a.slice(s, e)] for [0 <= s <= e]: both ends are clamped to the
    length. *)
Definition slice (a : Uint8Array) (s e : nat) : Uint8Array :=
  take (e - s) (drop s a).

(** [a.slice(s)]. *)
Definition slice_from (a : Uint8Array) (s : nat) : Uint8Array :=
  drop s a.

(** ToInt32 on an integer: wrap to the signed 32-bit range. *)
Definition ToInt32 (z : Z) : Z := (z + 2 ^ 31) mod 2 ^ 32 - 2 ^ 31.

(** ToInt32 on a value: [undefined] is NaN, which converts to 0. *)
Definition to_int32 (v : value) : Z :=
  match v with
  | undefined => 0
  | num z => ToInt32 z
  end.

(** [a << k]: the left operand as int32, shifted by [k & 31], wrapped
    to int32 again. *)
Definition shl (a : value) (k : Z) : value :=
  num (ToInt32 (Z.shiftl (to_int32 a) (Z.land k 31))).

(** [a | b]: bitwise or of the two operands as int32; the result is a
    signed 32-bit integer. *)
Definition bor (a b : value) : value :=
  num (Z.lor (to_int32 a) (to_int32 b)).

(** The number of iterations of [for (let i = 0; i < n; i++)]:
    [i < undefined] is false at once. *)
Definition iterations (n : value) : nat :=
  match n with
  | undefined => 0%nat
  | num z => Z.to_nat z
  end.

(** Lowercase hexadecimal, two digits per byte:
    [Buffer.from(a).toString('hex')]. *)
Definition hex_digit (n : N) : ascii :=
  match String.get (N.to_nat n) "0123456789abcdef" with
  | Some c => c
  | None => "0"%char
  end.

Definition hex_of_byte (b : Byte.byte) : string :=
  String (hex_digit (N.div (Byte.to_N b) 16))
    (String (hex_digit (N.modulo (Byte.to_N b) 16)) EmptyString).

Fixpoint toHex (a : Uint8Array) : string :=
  match a with
  | [] => EmptyString
  | b :: a' => hex_of_byte b +:+ toHex a'
  end.

(** [ethers.hexlify(a)]. *)
Definition hexlify (a : Uint8Array) : string := "0x" +:+ toHex a.

(** The value of one hexadecimal digit, either case. *)
Definition hex_value (c : ascii) : option Z :=
  let n := Z.of_nat (nat_of_ascii c) in
  if (48 <=? n) && (n <=? 57) then Some (n - 48)
  else if (97 <=? n) && (n <=? 102) then Some (n - 87)
  else if (65 <=? n) && (n <=? 70) then Some (n - 55)
  else None.

Fixpoint parse_hex (acc : Z) (s : string) : option Z :=
  match s with
  | EmptyString => Some acc
  | String c s' =>
      match hex_value c with
      | Some d => parse_hex (acc * 16 + d) s'
      | None => None
      end
  end.

(** [BigInt('0x' + digits)]: a hexadecimal literal needs at least one
    digit, and nothing but digits; otherwise the conversion throws a
    SyntaxError. *)
Definition BigInt_0x (digits : string) : outcome Z :=
  match digits with
  | EmptyString => Thrown (SyntaxError "Cannot convert 0x to a BigInt")
  | _ =>
      match parse_hex 0 digits with
      | Some z => Returned z
      | None =>
          Thrown (SyntaxError ("Cannot convert 0x" +:+ digits +:+ " to a BigInt"))
      end
  end.

(** A string that holds no dash, as the decimal digits of a
    non-negative number. *)
Fixpoint dashless (s : string) : Prop :=
  match s with
  | EmptyString => True
  | String c s' => c ≠ "-"%char /\ dashless s'
  end.

(** Whether a call threw a TypeError. *)
Definition is_thrown_TypeError {A} (o : outcome A) : bool :=
  match o with
  | Thrown (TypeError _) => true
  | _ => false
  end.

End JS.

(** ** The logger, as the two services import it

    Both services start with [import * as logger from '../utils/logger'].
    The module [utils/logger.ts] exports one name, the class [Logger],
    whose static methods do the logging.  The namespace object that the
    import binds to [logger] therefore has the member [Logger] and no
    other: [logger.info], [logger.warn] and [logger.error] are
    [undefined], and a call of one of them, once its arguments are
    evaluated, throws a TypeError.  The arguments of these calls are
    strings, template strings of numbers and strings, object literals
    of such values and a caught error: their evaluation does nothing
    else.  The message of the TypeError is the engine's; nothing below
    depends on its text. *)
Module Logger.
Import JS.

(** The TypeError of a call of [logger.<member>]. *)
Definition notAFunction (member : string) : error :=
  TypeError ("logger." +:+ member +:+ " is not a function").

(** [logger.info(...)]. *)
Definition info : outcome unit := Thrown (notAFunction "info").

(** [logger.warn(...)]. *)
Definition warn : outcome unit := Thrown (notAFunction "warn").

(** [logger.error(...)]. *)
Definition error : outcome unit := Thrown (notAFunction "error").

End Logger.

(** ** [WormholeBridgeService]: the attestation codec, the guardian
    client and the transfers *)
Module WormholeBridge.
Import JS.

Record SignatureSet : Type := {
  guardianIndex : value;
  signature : Uint8Array;
}.

Record VAA : Type := {
  version : value;
  guardianSetIndex : value;
  signatures : list SignatureSet;
  timestamp : value;
  nonce : value;
  emitterChain : value;
  emitterAddress : string;
  sequence : Z;
  consistencyLevel : value;
  payload : Uint8Array;
}.

(** The body of [for (let i = 0; i < sigLength; i++)] in [parseVAA],
    [n] iterations from [index] on. *)
Fixpoint parseSignatures (vaaBytes : Uint8Array) (n : nat) (index : nat)
    (signatures : list SignatureSet) : list SignatureSet * nat :=
  match n with
  | O => (signatures, index)
  | S n' =>
      let guardianIndex := get vaaBytes index in
      let index := (index + 1)%nat in
      let signature := slice vaaBytes index (index + 65) in
      let index := (index + 65)%nat in
      parseSignatures vaaBytes n' index
        (signatures ++ [{| guardianIndex := guardianIndex; signature := signature |}])
  end.

(** [parseVAA(vaaBytes)]. *)
Definition parseVAA (vaaBytes : Uint8Array) : outcome VAA :=
  let index := 0%nat in
  let version := get vaaBytes index in
  let index := (index + 1)%nat in
  let guardianSetIndex :=
    bor (bor (bor (shl (get vaaBytes index) 24)
                  (shl (get vaaBytes (index + 1)) 16))
             (shl (get vaaBytes (index + 2)) 8))
        (get vaaBytes (index + 3)) in
  let index := (index + 4)%nat in
  let sigLength := get vaaBytes index in
  let index := (index + 1)%nat in
  let '(signatures, index) :=
    parseSignatures vaaBytes (iterations sigLength) index [] in
  let timestamp :=
    bor (bor (bor (shl (get vaaBytes index) 24)
                  (shl (get vaaBytes (index + 1)) 16))
             (shl (get vaaBytes (index + 2)) 8))
        (get vaaBytes (index + 3)) in
  let index := (index + 4)%nat in
  let nonce :=
    bor (bor (bor (shl (get vaaBytes index) 24)
                  (shl (get vaaBytes (index + 1)) 16))
             (shl (get vaaBytes (index + 2)) 8))
        (get vaaBytes (index + 3)) in
  let index := (index + 4)%nat in
  let emitterChain :=
    bor (shl (get vaaBytes index) 8) (get vaaBytes (index + 1)) in
  let index := (index + 2)%nat in
  let emitterAddress := hexlify (slice vaaBytes index (index + 32)) in
  let index := (index + 32)%nat in
  match BigInt_0x (toHex (slice vaaBytes index (index + 8))) with
  | Thrown e => Thrown e
  | Returned sequence =>
      let index := (index + 8)%nat in
      let consistencyLevel := get vaaBytes index in
      let index := (index + 1)%nat in
      let payload := slice_from vaaBytes index in
      Returned {|
        version := version;
        guardianSetIndex := guardianSetIndex;
        signatures := signatures;
        timestamp := timestamp;
        nonce := nonce;
        emitterChain := emitterChain;
        emitterAddress := emitterAddress;
        sequence := sequence;
        consistencyLevel := consistencyLevel;
        payload := payload;
      |}
  end.

(** *** The service's tables and state *)

Definition WORMHOLE_CONTRACTS (chainId : Z) : option string :=
  if decide (chainId = 1) then Some "0x98f3c9e6E3fAce36bAAd05FE09d375Ef1464288B"
  else if decide (chainId = 137) then Some "0x7A4B5a56256163F07b2C80A7cA55aBE66c4ec4d7"
  else if decide (chainId = 42161) then Some "0xa5f208e072434bC67592E4C49C1B991BA79BCA46"
  else if decide (chainId = 10) then Some "0xEe91C335eab126dF5fDB3797EA9d6aD93aeC9722"
  else if decide (chainId = 8453) then Some "0xbebdb6C8ddC678FfA9f8748f85C815C556Dd8ac6"
  else if decide (chainId = 56) then Some "0x98f3c9e6E3fAce36bAAd05FE09d375Ef1464288B"
  else None.

Definition TOKEN_BRIDGE_CONTRACTS (chainId : Z) : option string :=
  if decide (chainId = 1) then Some "0x3ee18B2214AFF97000D974cf647E7C347E8fa585"
  else if decide (chainId = 137) then Some "0x5a58505a96D1dbf8dF91cB21B54419FC36e93fdE"
  else if decide (chainId = 42161) then Some "0x0b2402144Bb366A632D14B83F244D2e0e21bD39c"
  else if decide (chainId = 10) then Some "0x1D68124e65faFC907325e3EDbF8c4d84499DAa8b"
  else if decide (chainId = 8453) then Some "0x8d2de8d2f73F1F4cAB472AC9A881C9b123C79627"
  else if decide (chainId = 56) then Some "0xB6F6D86a8f9879A9c87f643768d9efc38c1Da6E7"
  else None.

Definition GUARDIAN_RPC_HOSTS : list string :=
  [ "https://wormhole-v2-mainnet-api.certus.one";
    "https://wormhole.inotel.ro";
    "https://wormhole-v2-mainnet-api.mcf.rocks";
    "https://wormhole-v2-mainnet-api.chainlayer.network";
    "https://wormhole-v2-mainnet-api.staking.fund" ].

Definition CHAIN_IDS_table : list (string * Z) :=
  [ ("ethereum", 2); ("bsc", 4); ("polygon", 5); ("avalanche", 6);
    ("oasis", 7); ("algorand", 8); ("aurora", 9); ("fantom", 10);
    ("karura", 11); ("acala", 12); ("klaytn", 13); ("celo", 14);
    ("near", 15); ("moonbeam", 16); ("neon", 17); ("terra2", 18);
    ("injective", 19); ("osmosis", 20); ("sui", 21); ("aptos", 22);
    ("arbitrum", 23); ("optimism", 24); ("gnosis", 25); ("pythnet", 26);
    ("xpla", 28); ("base", 30); ("sei", 32); ("rootstock", 33);
    ("scroll", 34); ("mantle", 35); ("blast", 36); ("xlayer", 37);
    ("linea", 38); ("berachain", 39); ("seievm", 40); ("solana", 1) ].

(** [this.CHAIN_IDS[name]]: [undefined] for a name that is no key. *)
Definition CHAIN_IDS (name : string) : value :=
  match List.find (fun kv => bool_decide (fst kv = name)) CHAIN_IDS_table with
  | Some kv => num (snd kv)
  | None => undefined
  end.

(** [getChainName(chainId)]: [names[chainId] || 'ethereum']. *)
Definition getChainName (chainId : Z) : string :=
  if decide (chainId = 1) then "ethereum"
  else if decide (chainId = 56) then "bsc"
  else if decide (chainId = 137) then "polygon"
  else if decide (chainId = 42161) then "arbitrum"
  else if decide (chainId = 10) then "optimism"
  else if decide (chainId = 8453) then "base"
  else "ethereum".

Record TokenBridgeTransfer : Type := {
  tokenChain : value;
  tokenAddress : string;
  amount : Z;
  targetChain : value;
  targetAddress : string;
}.

(** The two private [Map]s of the service.  [providers] holds the keys
    only: the provider objects are behind [Chain] below. *)
Record service : Type := {
  providers : gset Z;
  activeTransfers : gmap string TokenBridgeTransfer;
}.

(** The constructor: [initializeProviders] and an empty transfer map. *)
Definition new_service : service :=
  {| providers := {[ 1; 137; 42161; 10; 8453; 56 ]};
     activeTransfers := ∅ |}.

(** Template-literal rendering of a number. *)
Definition show (v : value) : string :=
  match v with
  | undefined => "undefined"
  | num z => pretty z
  end.

(** The key [`${sourceChainId}-${sequence}`] of [activeTransfers]. *)
Definition transferKey (sourceChainId sequence : Z) : string :=
  pretty sourceChainId +:+ "-" +:+ pretty sequence.

(** *** The world outside the service *)

Record Log : Type := {
  topics : list string;
  data : string;
}.

Record TransactionReceipt : Type := {
  logs : list Log;
}.

(** A submitted transaction: its hash, and what [wait()] resolves to. *)
Record ContractTransaction : Type := {
  hash : string;
  wait : outcome TransactionReceipt;
}.

(** The functions of the [ethers] library the service calls.
    [decodeSequence data] stands for
    [Number(AbiCoder.defaultAbiCoder().decode([...], data)[1])]. *)
Record Ethers : Type := {
  id : string -> string;
  parseUnits : string -> Z -> outcome Z;
  zeroPadValue : string -> Z -> outcome string;
  decodeSequence : string -> outcome Z;
}.

(** The contracts as the connected wallet reaches them, and the draw of
    [Math.floor(Math.random() * 1000000)]. *)
Record Chain : Type := {
  token_approve : string -> string -> Z -> outcome ContractTransaction;
  tokenBridge_transferTokens :
    string -> string -> Z -> value -> string -> Z -> Z ->
    outcome ContractTransaction;
  tokenBridge_completeTransfer :
    string -> Uint8Array -> outcome ContractTransaction;
  random_nonce : Z;
}.

(** What one [fetch(url)] followed by [response.json()] gives.
    [Json (Some bytes)]: [data.vaaBytes] is a string whose base64
    decoding is [bytes]; [Json None]: it is missing, and [Buffer.from]
    throws. *)
Inductive response_body : Type :=
| BadJson (e : error)
| Json (vaaBytes : option Uint8Array).

Inductive fetch_result : Type :=
| NetworkError (e : error)
| Response (ok : bool) (body : response_body).

(** The guardian network: the answer to the request for [url] made in
    round [attempt]. *)
Abbreviation Network := (nat -> string -> fetch_result).

(** What [getSignedVAA] does to the outside, in order. *)
Inductive effect : Type :=
| Request (attempt : nat) (url : string)
| Sleep (ms : Z).

(** *** [extractSequence(receipt)] *)
Definition extractSequence (E : Ethers) (receipt : TransactionReceipt)
    : outcome Z :=
  let logTransferTopic :=
    id E "LogMessagePublished(address,uint64,uint32,bytes,uint8)" in
  match List.find
          (fun log => bool_decide (topics log !! 0%nat = Some logTransferTopic))
          (logs receipt) with
  | None => Thrown (Error "LogMessagePublished event not found")
  | Some log => decodeSequence E (data log)
  end.

(** *** [transferTokens(...)] *)

(** The promise of the call rejects with what its body throws; the
    entry of [activeTransfers] is written last, before the [return]. *)
Definition transferTokens (E : Ethers) (C : Chain) (st : service)
    (sourceChainId targetChainId : Z) (tokenAddress amount recipientAddress : string)
    : outcome (string * Z) * service :=
  let submitted :=
    _ ← Logger.info;
    _ ← Logger.info;
    _ ← Logger.info;
    match TOKEN_BRIDGE_CONTRACTS sourceChainId with
    | None =>
        Thrown (Error ("Token bridge not supported on chain " +:+ pretty sourceChainId))
    | Some tokenBridgeAddress =>
        if negb (bool_decide (sourceChainId ∈ providers st)) then
          Thrown (Error ("Provider not configured for chain " +:+ pretty sourceChainId))
        else
          _ ← Logger.info;
          units ← parseUnits E amount 18;
          approveTx ← token_approve C tokenAddress tokenBridgeAddress units;
          _ ← wait approveTx;
          recipientBytes32 ← zeroPadValue E recipientAddress 32;
          let wormholeChainId := CHAIN_IDS (getChainName targetChainId) in
          _ ← Logger.info;
          transferTx ←
            tokenBridge_transferTokens C tokenBridgeAddress tokenAddress units
              wormholeChainId recipientBytes32 0 (random_nonce C);
          receipt ← wait transferTx;
          sequence ← extractSequence E receipt;
          _ ← Logger.info;
          _ ← Logger.info;
          Returned (transferTx, sequence, units, wormholeChainId)
    end in
  match submitted with
  | Thrown e => (Thrown e, st)
  | Returned (transferTx, sequence, units, wormholeChainId) =>
      let transfer :=
        {| tokenChain := CHAIN_IDS (getChainName sourceChainId);
           tokenAddress := tokenAddress;
           amount := units;
           targetChain := wormholeChainId;
           targetAddress := recipientAddress |} in
      (Returned (hash transferTx, sequence),
       {| providers := providers st;
          activeTransfers :=
            <[transferKey sourceChainId sequence := transfer]> (activeTransfers st) |})
  end.

(** *** [getSignedVAA(emitterChain, emitterAddress, sequence)] *)

(** The [try] block for one host: [Returned (Some bytes)] is the
    [return] inside it, which comes after a call of [logger.info];
    [Returned None] is falling out of the [if]. *)
Definition tryHost (net : Network) (attempt : nat) (url : string)
    : outcome (option Uint8Array) :=
  match net attempt url with
  | NetworkError e => Thrown e
  | Response ok body =>
      if ok then
        match body with
        | BadJson e => Thrown e
        | Json None =>
            Thrown (TypeError "The first argument must be of type string")
        | Json (Some vaaBytes) =>
            _ ← Logger.info;
            Returned (Some vaaBytes)
        end
      else Returned None
  end.

(** [for (const host of this.GUARDIAN_RPC_HOSTS)]: a thrown error is
    caught and the loop continues. *)
Fixpoint hostsLoop (net : Network) (attempt : nat) (path : string)
    (hosts : list string) (done : list effect)
    : option Uint8Array * list effect :=
  match hosts with
  | [] => (None, done)
  | host :: rest =>
      let url := host +:+ path in
      let done := done ++ [Request attempt url] in
      match tryHost net attempt url with
      | Returned (Some vaaBytes) => (Some vaaBytes, done)
      | Returned None => hostsLoop net attempt path rest done
      | Thrown _ => hostsLoop net attempt path rest done
      end
  end.

(** [for (let attempt = ...; attempt < 30; attempt++)], with [rounds]
    rounds still to go: after the hosts, [logger.info] and the delay. *)
Fixpoint attemptsLoop (net : Network) (path : string) (rounds : nat)
    (attempt : nat) (done : list effect)
    : outcome Uint8Array * list effect :=
  match rounds with
  | O => (Thrown (Error "Failed to retrieve signed VAA after 30 attempts"), done)
  | S rounds' =>
      match hostsLoop net attempt path GUARDIAN_RPC_HOSTS done with
      | (Some vaaBytes, done) => (Returned vaaBytes, done)
      | (None, done) =>
          match Logger.info with
          | Thrown e => (Thrown e, done)
          | Returned _ =>
              attemptsLoop net path rounds' (S attempt) (done ++ [Sleep 5000])
          end
      end
  end.

Definition signedVaaPath (emitterChain : value) (emitterAddress : string)
    (sequence : Z) : string :=
  "/v1/signed_vaa/" +:+ show emitterChain +:+ "/" +:+ emitterAddress
    +:+ "/" +:+ pretty sequence.

Definition getSignedVAA (net : Network) (emitterChain : value)
    (emitterAddress : string) (sequence : Z)
    : outcome Uint8Array * list effect :=
  match Logger.info with
  | Thrown e => (Thrown e, [])
  | Returned _ =>
      attemptsLoop net (signedVaaPath emitterChain emitterAddress sequence)
        30 0 []
  end.

(** *** [completeTransfer(targetChainId, vaa, wallet)] *)
Definition completeTransfer (C : Chain) (st : service) (targetChainId : Z)
    (vaa : Uint8Array) : outcome string * service :=
  (_ ← Logger.info;
   match TOKEN_BRIDGE_CONTRACTS targetChainId with
   | None =>
       Thrown (Error ("Token bridge not supported on chain " +:+ pretty targetChainId))
   | Some tokenBridgeAddress =>
       if negb (bool_decide (targetChainId ∈ providers st)) then
         Thrown (Error ("Provider not configured for chain " +:+ pretty targetChainId))
       else
         _ ← Logger.info;
         completeTx ← tokenBridge_completeTransfer C tokenBridgeAddress vaa;
         _ ← wait completeTx;
         _ ← Logger.info;
         Returned (hash completeTx)
   end,
   st).

(** *** [formatEmitterAddress(address)] *)
Definition lower (c : ascii) : ascii :=
  let n := nat_of_ascii c in
  if ((65 <=? n) && (n <=? 90))%nat then ascii_of_nat (n + 32) else c.

Fixpoint toLowerCase (s : string) : string :=
  match s with
  | EmptyString => EmptyString
  | String c s' => String (lower c) (toLowerCase s')
  end.

(** [s.replace('0x', '')]: the first occurrence only. *)
Fixpoint replace0x (s : string) : string :=
  match s with
  | EmptyString => EmptyString
  | String c s' =>
      match s' with
      | String c' s'' =>
          if bool_decide (c = "0"%char) && bool_decide (c' = "x"%char)
          then s''
          else String c (replace0x s')
      | EmptyString => s
      end
  end.

Fixpoint zeros (n : nat) : string :=
  match n with
  | O => EmptyString
  | S n' => String "0"%char (zeros n')
  end.

(** [s.padStart(n, '0')]. *)
Definition padStart0 (n : nat) (s : string) : string :=
  zeros (n - String.length s) +:+ s.

(** Called on [undefined] (a chain without token bridge), the method
    call throws. *)
Definition formatEmitterAddress (address : option string) : outcome string :=
  match address with
  | None => Thrown (TypeError "Cannot read properties of undefined")
  | Some a => Returned (padStart0 64 (replace0x (toLowerCase a)))
  end.



(** *** [bridgeTokens(...)]: lock, fetch the attestation, complete *)
Definition bridgeTokens (E : Ethers) (C : Chain) (net : Network) (st : service)
    (sourceChainId targetChainId : Z) (tokenAddress amount recipientAddress : string)
    : outcome (string * string) * service * list effect :=
  match transferTokens E C st sourceChainId targetChainId tokenAddress amount
          recipientAddress with
  | (Thrown e, st) => (Thrown e, st, [])
  | (Returned (txHash, sequence), st) =>
      match formatEmitterAddress (TOKEN_BRIDGE_CONTRACTS sourceChainId) with
      | Thrown e => (Thrown e, st, [])
      | Returned emitterAddress =>
          let emitterChain := CHAIN_IDS (getChainName sourceChainId) in
          match Logger.info with
          | Thrown e => (Thrown e, st, [])
          | Returned _ =>
              match getSignedVAA net emitterChain emitterAddress sequence with
              | (Thrown e, done) => (Thrown e, st, done)
              | (Returned vaa, done) =>
                  match completeTransfer C st targetChainId vaa with
                  | (Thrown e, st) => (Thrown e, st, done)
                  | (Returned unlockTx, st) =>
                      (Returned (txHash, unlockTx), st, done)
                  end
              end
          end
      end
  end.

(** *** Vocabulary for the properties of [getSignedVAA] *)

(** One request to each of [hosts], in order, in round [attempt]. *)
Definition requestsTo (path : string) (attempt : nat) (hosts : list string)
    : list effect :=
  map (fun host => Request attempt (host +:+ path)) hosts.

(** The error the loop ends with when its 30 rounds are used up. *)
Definition NotAvailable : error :=
  Error "Failed to retrieve signed VAA after 30 attempts".

(** *** [isChainSupported(chainId)] and [getSupportedChains()] *)

(** [chainId in this.WORMHOLE_CONTRACTS]. *)
Definition isChainSupported (chainId : Z) : bool :=
  bool_decide (is_Some (WORMHOLE_CONTRACTS chainId)).

(** [Object.keys(this.WORMHOLE_CONTRACTS).map(Number)]: the keys of an
    object that are integers come in ascending order, whatever the order
    they were written in. *)
Definition getSupportedChains : list Z := [1; 10; 56; 137; 8453; 42161].

End WormholeBridge.

(** ** [EventEmitter] *)
Module EventEmitter.
Import JS.

(** A listener is a function object; the [Set] of listeners compares
    them by identity, which is what this number stands for. *)
Abbreviation listener := nat.

(** [events] maps an event name to its [Set] of listeners, kept in
    insertion order without repetition (the order in which a JavaScript
    [Set] is iterated). *)
Record emitter : Type := {
  events : gmap string (list listener);
  maxListeners : nat;
}.

(** The constructor. *)
Definition new_emitter : emitter :=
  {| events := ∅; maxListeners := 10 |}.

(** What the listeners and the console see.  [user] is the state the
    listeners themselves work on; [invoked] records every call of a
    listener with its argument, in order; [console] the lines
    written.  Listeners work on [user] only: one that subscribes or
    unsubscribes listeners of the emitter it is called from (as the
    wrapper of [once] does) is outside this model. *)
Record world (U A : Type) : Type := {
  user : U;
  invoked : list (listener * A);
  console : list string;
}.
Arguments user {U A} w.
Arguments invoked {U A} w.
Arguments console {U A} w.

(** What calling each listener does: it returns or throws, and leaves
    the listeners' state changed either way. *)
Abbreviation handlers U A := (listener -> A -> U -> outcome unit * U).

(** A computation in the world, which may throw. *)
Abbreviation M U A X := (world U A -> outcome X * world U A).

(** [try { body } catch (error) { handler }]. *)
Definition try_catch {U A X} (body : M U A X) (handler : error -> M U A X)
    : M U A X :=
  fun w =>
    match body w with
    | (Returned x, w') => (Returned x, w')
    | (Thrown e, w') => handler e w'
    end.

(** [for (const x of xs) { body }]: an exception leaving the body ends
    the loop. *)
Fixpoint for_of {U A X} (xs : list X) (body : X -> M U A unit) : M U A unit :=
  fun w =>
    match xs with
    | [] => (Returned tt, w)
    | x :: rest =>
        match body x w with
        | (Returned _, w') => for_of rest body w'
        | (Thrown e, w') => (Thrown e, w')
        end
    end.

(** [listener(...args)]. *)
Definition call {U A} (h : handlers U A) (l : listener) (args : A)
    : M U A unit :=
  fun w =>
    let '(r, u) := h l args (user w) in
    (r, {| user := u; invoked := invoked w ++ [(l, args)]; console := console w |}).

Definition console_write {U A} (line : string) : M U A unit :=
  fun w =>
    (Returned tt,
     {| user := user w; invoked := invoked w; console := console w ++ [line] |}).

(** [Set.prototype.add]. *)
Definition set_add (l : listener) (ls : list listener) : list listener :=
  if bool_decide (l ∈ ls) then ls else ls ++ [l].

(** [Set.prototype.delete]. *)
Definition set_delete (l : listener) (ls : list listener) : list listener :=
  List.filter (fun l' => negb (bool_decide (l' = l))) ls.

(** The line of [console.warn] in [on]. *)
Definition maxListenersWarning (size : nat) (event : string) : string :=
  "MaxListenersExceededWarning: Possible EventEmitter memory leak detected. "
  +:+ pretty size +:+ " " +:+ event
  +:+ " listeners added. Use setMaxListeners() to increase limit".

(** [on(event, listener)]. *)
Definition on {U A} (e : emitter) (event : string) (l : listener)
    : M U A emitter :=
  fun w =>
    let listeners := set_add l (default [] (events e !! event)) in
    let e' := {| events := <[event := listeners]> (events e);
                 maxListeners := maxListeners e |} in
    if (maxListeners e <? length listeners)%nat then
      match console_write (maxListenersWarning (length listeners) event) w with
      | (_, w') => (Returned e', w')
      end
    else (Returned e', w).

(** [off(event, listener)]. *)
Definition off (e : emitter) (event : string) (l : listener) : emitter :=
  match events e !! event with
  | None => e
  | Some listeners =>
      let listeners := set_delete l listeners in
      {| events :=
           if bool_decide (length listeners = 0%nat)
           then delete event (events e)
           else <[event := listeners]> (events e);
         maxListeners := maxListeners e |}
  end.

(** [listeners(event)]. *)
Definition listeners (e : emitter) (event : string) : list listener :=
  default [] (events e !! event).

(** [listenerCount(event)]. *)
Definition listenerCount (e : emitter) (event : string) : nat :=
  length (listeners e event).

(** [emit(event, ...args)]. *)
Definition emit {U A} (h : handlers U A) (e : emitter) (event : string)
    (args : A) : M U A bool :=
  fun w =>
    match events e !! event with
    | None => (Returned false, w)
    | Some listeners =>
        if bool_decide (length listeners = 0%nat) then (Returned false, w)
        else
          match
            for_of listeners
              (fun listener =>
                 try_catch (call h listener args)
                   (fun error =>
                      console_write ("Error in event listener for " +:+ event)))
              w
          with
          | (Returned _, w') => (Returned true, w')
          | (Thrown e, w') => (Thrown e, w')
          end
    end.

(** [removeListener(event, listener)]: an alias of [off]. *)
Definition removeListener (e : emitter) (event : string) (l : listener)
    : emitter :=
  off e event l.

(** [removeAllListeners(event?)].  The test [if (event)] fails for a
    missing argument and for the empty string alike. *)
Definition removeAllListeners (e : emitter) (event : option string) : emitter :=
  match event with
  | Some name =>
      if bool_decide (name = EmptyString)
      then {| events := ∅; maxListeners := maxListeners e |}
      else {| events := delete name (events e); maxListeners := maxListeners e |}
  | None => {| events := ∅; maxListeners := maxListeners e |}
  end.

(** [eventNames()], as a set: the order of the array, that of the first
    subscriptions, is not kept here. *)
Definition eventNames (e : emitter) : gset string := dom (events e).

(** [setMaxListeners(n)], for [n] a natural number. *)
Definition setMaxListeners (e : emitter) (n : nat) : emitter :=
  {| events := events e; maxListeners := n |}.

(** [getMaxListeners()]. *)
Definition getMaxListeners (e : emitter) : nat := maxListeners e.

(** No event is kept without a listener, and no listener twice. *)
Definition tidy (e : emitter) : Prop :=
  forall event ls, events e !! event = Some ls -> ls ≠ [] /\ NoDup ls.

(** The emitters that the calls of the class lead to from a new one. *)
Inductive reachable : emitter -> Prop :=
| reachable_new : reachable new_emitter
| reachable_on {U A} (e e' : emitter) (event : string) (l : listener)
    (w w' : world U A) :
    reachable e -> on e event l w = (Returned e', w') -> reachable e'
| reachable_off (e : emitter) (event : string) (l : listener) :
    reachable e -> reachable (off e event l)
| reachable_removeAllListeners (e : emitter) (event : option string) :
    reachable e -> reachable (removeAllListeners e event)
| reachable_setMaxListeners (e : emitter) (n : nat) :
    reachable e -> reachable (setMaxListeners e n).

End EventEmitter.

(** ** The event bus with [once] *)
Module Once.
Import JS.
Import EventEmitter(listener, world, user, invoked, console, handlers, call,
  console_write, maxListenersWarning).

(** A function object subscribed to the emitter: a listener of the
    application, or the wrapper that a call of [once] creates.  The
    wrapper is a new object at each call, told from every other by the
    rank of the call that made it; its closure holds the event and the
    listener it was made for. *)
Inductive fn : Type :=
| Plain (l : listener)
| OnceWrapper (rank : nat) (event : string) (inner : fn).

#[global] Instance fn_eq_dec : EqDecision fn.
Proof. solve_decision. Defined.

(** The emitter, with the number of wrappers made so far. *)
Record emitter : Type := {
  events : gmap string (list fn);
  maxListeners : nat;
  wrappersMade : nat;
}.

Definition with_events (e : emitter) (m : gmap string (list fn)) : emitter :=
  {| events := m; maxListeners := maxListeners e;
     wrappersMade := wrappersMade e |}.

(** [Set.prototype.add] and [Set.prototype.delete]. *)
Definition set_add (f : fn) (fs : list fn) : list fn :=
  if bool_decide (f ∈ fs) then fs else fs ++ [f].

Definition set_delete (f : fn) (fs : list fn) : list fn :=
  List.filter (fun f' => negb (bool_decide (f' = f))) fs.

(** [on(event, listener)]. *)
Definition on {U A} (e : emitter) (event : string) (f : fn) (w : world U A)
    : emitter * world U A :=
  let listeners := set_add f (default [] (events e !! event)) in
  let e' := with_events e (<[event := listeners]> (events e)) in
  if (maxListeners e <? length listeners)%nat then
    (e', (console_write (maxListenersWarning (length listeners) event) w).2)
  else (e', w).

(** [off(event, listener)]. *)
Definition off (e : emitter) (event : string) (f : fn) : emitter :=
  match events e !! event with
  | None => e
  | Some listeners =>
      let listeners := set_delete f listeners in
      with_events e
        (if bool_decide (length listeners = 0%nat)
         then delete event (events e)
         else <[event := listeners]> (events e))
  end.

(** [removeListener(event, listener)]. *)
Definition removeListener (e : emitter) (event : string) (f : fn) : emitter :=
  off e event f.

(** [once(event, listener)]: a new wrapper is made and subscribed. *)
Definition once {U A} (e : emitter) (event : string) (listener : fn)
    (w : world U A) : emitter * world U A :=
  let onceWrapper := OnceWrapper (wrappersMade e) event listener in
  on {| events := events e; maxListeners := maxListeners e;
        wrappersMade := S (wrappersMade e) |}
     event onceWrapper w.

(** Calling a function object.  The wrapper calls its listener, and
    unsubscribes itself when the listener has returned; when the
    listener throws, the wrapper is left at once. *)
Fixpoint invoke {U A} (h : handlers U A) (f : fn) (args : A) (e : emitter)
    (w : world U A) : outcome unit * emitter * world U A :=
  match f with
  | Plain l => let '(r, w') := call h l args w in (r, e, w')
  | OnceWrapper _ event inner =>
      match invoke h inner args e w with
      | (Returned _, e', w') => (Returned tt, removeListener e' event f, w')
      | (Thrown error, e', w') => (Thrown error, e', w')
      end
  end.

(** The loop of [emit] over the set of the event, which the wrappers
    change as it goes: a function deleted before its turn is passed
    over.  An error thrown by a call is caught and written to the
    console. *)
Fixpoint emitLoop {U A} (h : handlers U A) (event : string) (args : A)
    (pending : list fn) (e : emitter) (w : world U A) : emitter * world U A :=
  match pending with
  | [] => (e, w)
  | f :: rest =>
      if bool_decide (f ∈ default [] (events e !! event)) then
        match invoke h f args e w with
        | (Returned _, e', w') => emitLoop h event args rest e' w'
        | (Thrown error, e', w') =>
            emitLoop h event args rest e'
              (console_write ("Error in event listener for " +:+ event) w').2
        end
      else emitLoop h event args rest e w
  end.

(** [emit(event, ...args)]. *)
Definition emit {U A} (h : handlers U A) (e : emitter) (event : string)
    (args : A) (w : world U A) : bool * emitter * world U A :=
  match events e !! event with
  | None => (false, e, w)
  | Some listeners =>
      if bool_decide (length listeners = 0%nat) then (false, e, w)
      else
        let '(e', w') := emitLoop h event args listeners e w in
        (true, e', w')
  end.

(** [listeners(event)]. *)
Definition listeners (e : emitter) (event : string) : list fn :=
  default [] (events e !! event).

(** An emitter without wrappers, in this model. *)
Definition plain (e : EventEmitter.emitter) (made : nat) : emitter :=
  {| events := fmap (map Plain) (EventEmitter.events e);
     maxListeners := EventEmitter.maxListeners e;
     wrappersMade := made |}.

End Once.

(** ** [FusionAuctionTracker] *)
Module FusionAuctionTracker.
Import JS.

Inductive AuctionState : Type :=
| PENDING
| ANNOUNCED
| IN_AUCTION
| RESOLVER_SELECTED
| ESCROW_DEPOSITED
| SECRET_REVEALING
| EXECUTING
| COMPLETED
| FAILED
| EXPIRED
| REFUNDING
| REFUNDED.

#[export] Instance AuctionState_eq_dec : EqDecision AuctionState.
Proof. solve_decision. Defined.

(** The string each member of the enum stands for: also the name of the
    event emitted for it. *)
Definition state_name (s : AuctionState) : string :=
  match s with
  | PENDING => "pending"
  | ANNOUNCED => "announced"
  | IN_AUCTION => "in_auction"
  | RESOLVER_SELECTED => "resolver_selected"
  | ESCROW_DEPOSITED => "escrow_deposited"
  | SECRET_REVEALING => "secret_revealing"
  | EXECUTING => "executing"
  | COMPLETED => "completed"
  | FAILED => "failed"
  | EXPIRED => "expired"
  | REFUNDING => "refunding"
  | REFUNDED => "refunded"
  end.

Record ResolverInfo : Type := {
  address : string;
  bidAmount : string;
  reputation : Z;
  estimatedTime : Z;
  depositTxHash : option string;
}.

(** Modelled from the spec: the record [AuctionStatus] that
    [FusionPlusClient.getOrderStatus] resolves to, whose declaration
    (FusionPlusClient.ts) is not among the sources:
    [{status: string, resolver?: string, fills?: list}].  A fill is kept
    as an opaque string. *)
Record AuctionStatus : Type := {
  status : string;
  status_resolver : option string;
  fills : option (list string);
}.

Record EventData : Type := {
  data_status : AuctionStatus;
  data_resolver : option ResolverInfo;
}.

Record AuctionEvent : Type := {
  orderHash : string;
  event_state : AuctionState;
  timestamp : Z;
  data : option EventData;
}.

(** The argument of one [emit]: an [AuctionEvent], or the
    [{ orderHash }] of [refund_needed]. *)
Inductive payload : Type :=
| AuctionPayload (e : AuctionEvent)
| RefundPayload (orderHash : string).

(** An entry of [activeAuctions]. *)
Record auction_entry : Type := {
  state : AuctionState;
  resolver : option ResolverInfo;
  startTime : Z;
  timeoutMs : Z;
  pollInterval : option nat;
}.

(** The tracker and what it has done so far.
    - [intervals]: the live [setInterval] timers, each handle with the
      [orderHash] its callback closes over; [clearInterval] removes the
      handle, and a removed handle never fires again;
    - [emitted]: every [this.emit(event, payload)], in order;
    - [queries]: every [getOrderStatus(orderHash)] issued, in order. *)
Record tracker : Type := {
  activeAuctions : gmap string auction_entry;
  intervals : gmap nat string;
  nextHandle : nat;
  emitted : list (string * payload);
  queries : list string;
}.

(** The fields of a new object, as [super()] and the initializers leave
    them before the body of the constructor runs. *)
Definition fields : tracker :=
  {| activeAuctions := ∅; intervals := ∅; nextHandle := 0%nat;
     emitted := []; queries := [] |}.

(** A method of the tracker: it returns or throws, and has changed the
    tracker either way. *)
Definition T (X : Type) : Type := tracker -> outcome X * tracker.

#[export] Instance T_ret : MRet T := fun X x tr => (Returned x, tr).

#[export] Instance T_bind : MBind T :=
  fun X Y k m tr =>
    match m tr with
    | (Returned x, tr') => k x tr'
    | (Thrown e, tr') => (Thrown e, tr')
    end.

(** A call that does not touch the tracker. *)
Definition lift {X} (o : outcome X) : T X := fun tr => (o, tr).

(** A statement that changes the tracker and does not throw. *)
Definition modify (f : tracker -> tracker) : T unit :=
  fun tr => (Returned tt, f tr).

(** [try { body } catch (error) { handler }]. *)
Definition try_catch {X} (body : T X) (handler : error -> T X) : T X :=
  fun tr =>
    match body tr with
    | (Returned x, tr') => (Returned x, tr')
    | (Thrown e, tr') => handler e tr'
    end.

(** The constructor, called with a client: after [super()] and the
    fields, its last statement is a call of [logger.info]. *)
Definition constructor : outcome tracker :=
  _ ← Logger.info;
  Returned fields.

Definition set_auctions (m : gmap string auction_entry) (tr : tracker) : tracker :=
  {| activeAuctions := m; intervals := intervals tr;
     nextHandle := nextHandle tr; emitted := emitted tr;
     queries := queries tr |}.

(** [this.emit(event, payload)], as the tracker sees it: listeners are
    isolated by [EventEmitter.emit] and do not reach into the tracker. *)
Definition emit (event : string) (p : payload) (tr : tracker) : tracker :=
  {| activeAuctions := activeAuctions tr; intervals := intervals tr;
     nextHandle := nextHandle tr; emitted := emitted tr ++ [(event, p)];
     queries := queries tr |}.

(** [clearInterval(handle)]. *)
Definition clearInterval (handle : nat) (tr : tracker) : tracker :=
  {| activeAuctions := activeAuctions tr;
     intervals := delete handle (intervals tr);
     nextHandle := nextHandle tr; emitted := emitted tr;
     queries := queries tr |}.

(** The call [this.fusionClient.getOrderStatus(orderHash)] is issued. *)
Definition asked (orderHash : string) (tr : tracker) : tracker :=
  {| activeAuctions := activeAuctions tr; intervals := intervals tr;
     nextHandle := nextHandle tr; emitted := emitted tr;
     queries := queries tr ++ [orderHash] |}.

(** [emitAuctionEvent(orderHash, state, data)] at clock reading [now]:
    the event is built, [logger.info] is called, and then come the two
    calls of [emit]. *)
Definition emitAuctionEvent (now : Z) (orderHash : string)
    (state : AuctionState) (data : option EventData) : T unit :=
  let event :=
    AuctionPayload {| orderHash := orderHash; event_state := state;
                      timestamp := now; data := data |} in
  _ ← lift Logger.info;
  _ ← modify (emit "auction_update" event);
  modify (emit (state_name state) event).

(** A string is truthy when it is not empty. *)
Definition truthy (s : string) : bool :=
  match s with
  | EmptyString => false
  | String _ _ => true
  end.

(** The [switch] of [checkAuctionStatus]: the new state, and the entry
    with [resolver] set where the case does so. *)
Definition mapStatus (s : AuctionStatus) (auction : auction_entry)
    : AuctionState * auction_entry :=
  if bool_decide (status s = "pending") then (ANNOUNCED, auction)
  else if bool_decide (status s = "in_auction") then (IN_AUCTION, auction)
  else if bool_decide (status s = "resolver_selected") then
    (RESOLVER_SELECTED,
     match status_resolver s with
     | Some r =>
         if truthy r then
           {| state := state auction;
              resolver := Some {| address := r; bidAmount := "0";
                                  reputation := 0; estimatedTime := 300;
                                  depositTxHash := None |};
              startTime := startTime auction; timeoutMs := timeoutMs auction;
              pollInterval := pollInterval auction |}
         else auction
     | None => auction
     end)
  else if bool_decide (status s = "executing") then
    (match fills s with
     | Some fs =>
         if (0 <? length fs)%nat then ESCROW_DEPOSITED else EXECUTING
     | None => EXECUTING
     end, auction)
  else if bool_decide (status s = "completed") then (COMPLETED, auction)
  else if bool_decide (status s = "failed") then (FAILED, auction)
  else if bool_decide (status s = "expired") then (EXPIRED, auction)
  else (state auction, auction).

(** [auction.state = s]. *)
Definition with_state (s : AuctionState) (a : auction_entry) : auction_entry :=
  {| state := s; resolver := resolver a; startTime := startTime a;
     timeoutMs := timeoutMs a; pollInterval := pollInterval a |}.

(** [checkAuctionStatus(orderHash)], given what [getOrderStatus]
    resolves to (or rejects with): the request is sent, and from the
    arrival of the response the method runs to its end.  The whole body
    is inside [try]; the [catch] calls [logger.error] and nothing
    else. *)
Definition checkAuctionStatus (now : Z) (orderHash : string)
    (response : outcome AuctionStatus) : T unit :=
  try_catch
    (_ ← modify (asked orderHash);
     s ← lift response;
     ((fun tr =>
         match activeAuctions tr !! orderHash with
         | None => (Returned tt, tr)
         | Some auction =>
             let '(newState, auction) := mapStatus s auction in
             let tr :=
               set_auctions (<[orderHash := auction]> (activeAuctions tr)) tr in
             if bool_decide (newState ≠ state auction) then
               let auction := with_state newState auction in
               emitAuctionEvent now orderHash newState
                 (Some {| data_status := s; data_resolver := resolver auction |})
                 (set_auctions (<[orderHash := auction]> (activeAuctions tr)) tr)
             else (Returned tt, tr)
         end) : T unit))
    (fun error => lift Logger.error).

(** [handleTimeout(orderHash)]. *)
Definition handleTimeout (now : Z) (orderHash : string) : T unit :=
  fun tr =>
    match activeAuctions tr !! orderHash with
    | None => (Returned tt, tr)
    | Some auction =>
        (_ ← modify
               (set_auctions
                  (<[orderHash := with_state EXPIRED auction]> (activeAuctions tr)));
         _ ← emitAuctionEvent now orderHash EXPIRED None;
         modify (emit "refund_needed" (RefundPayload orderHash))) tr
    end.

(** The states at which the interval callback stops polling. *)
Definition terminal (s : AuctionState) : bool :=
  match s with
  | COMPLETED | FAILED | EXPIRED | REFUNDED => true
  | _ => false
  end.

(** The callback given to [setInterval] in [startPolling], for the
    timer [handle] of the order [orderHash].  It runs in two steps,
    between which other code may run: [checkAuctionStatus], from the
    arrival of the status response to its end, and then, resumed at its
    [await] with the outcome [checked] of that call, the rest of the
    callback, [resume].  The whole body is inside [try]; the [catch]
    calls [logger.error] and nothing else, so that what the callback
    throws is what that call throws.  No one handles the rejection of
    the callback.  [now] is the reading of the clock at the
    comparison. *)
Definition resume (now : Z) (handle : nat) (orderHash : string)
    (checked : outcome unit) : T unit :=
  try_catch
    (_ ← lift checked;
     ((fun tr =>
         match activeAuctions tr !! orderHash with
         | None => (Returned tt, clearInterval handle tr)
         | Some currentAuction =>
             (_ ← (if terminal (state currentAuction) then
                     _ ← modify (clearInterval handle);
                     _ ← modify
                           (fun tr =>
                              set_auctions (delete orderHash (activeAuctions tr)) tr);
                     lift Logger.info
                   else (mret tt : T unit));
              let elapsed := now - startTime currentAuction in
              if timeoutMs currentAuction <? elapsed then
                _ ← lift Logger.warn;
                _ ← handleTimeout now orderHash;
                modify (clearInterval handle)
              else (mret tt : T unit)) tr
         end) : T unit))
    (fun error => lift Logger.error).

(** The two steps in a row, nothing running between them. *)
Definition callback (now : Z) (handle : nat) (orderHash : string)
    (response : outcome AuctionStatus) : T unit :=
  fun tr =>
    let '(checked, tr) := checkAuctionStatus now orderHash response tr in
    resume now handle orderHash checked tr.

(** One tick of the timer [handle]: a cleared timer does not fire, a
    live one runs the callback for its order. *)
Definition pollTick (now : Z) (handle : nat)
    (response : outcome AuctionStatus) : T unit :=
  fun tr =>
    match intervals tr !! handle with
    | None => (Returned tt, tr)
    | Some orderHash => callback now handle orderHash response tr
    end.

(** [startPolling(orderHash)]: a new timer, its handle stored in the
    entry. *)
Definition startPolling (orderHash : string) : T unit :=
  fun tr =>
    match activeAuctions tr !! orderHash with
    | None => (Returned tt, tr)
    | Some auction =>
        let handle := nextHandle tr in
        (Returned tt,
         {| activeAuctions :=
              <[orderHash :=
                  {| state := state auction; resolver := resolver auction;
                     startTime := startTime auction;
                     timeoutMs := timeoutMs auction;
                     pollInterval := Some handle |}]> (activeAuctions tr);
            intervals := <[handle := orderHash]> (intervals tr);
            nextHandle := S handle;
            emitted := emitted tr;
            queries := queries tr |})
    end.

(** [trackOrder(orderHash, timeoutMinutes)] at clock reading [now], for
    a whole number of minutes, small enough for the product with 60000
    to be exact in a double.  The body is inside [try]; the [catch]
    calls [logger.error] and then throws the error again. *)
Definition trackOrder (now : Z) (orderHash : string) (timeoutMinutes : Z)
    : T unit :=
  try_catch
    (_ ← lift Logger.info;
     let timeoutMs := timeoutMinutes * 60 * 1000 in
     _ ← modify
           (fun tr =>
              set_auctions
                (<[orderHash :=
                     {| state := PENDING; resolver := None; startTime := now;
                        timeoutMs := timeoutMs; pollInterval := None |}]>
                   (activeAuctions tr)) tr);
     _ ← emitAuctionEvent now orderHash ANNOUNCED None;
     startPolling orderHash)
    (fun error =>
       _ ← lift Logger.error;
       lift (Thrown error)).

(** The default of [timeoutMinutes]. *)
Definition defaultTimeoutMinutes : Z := 30.

(** [getAuctionState(orderHash)]: [None] is [null]. *)
Definition getAuctionState (tr : tracker) (orderHash : string)
    : option AuctionState :=
  state <$> activeAuctions tr !! orderHash.





(** [getActiveAuctions()]. *)
Definition getActiveAuctions (tr : tracker) : gmap string AuctionState :=
  state <$> activeAuctions tr.

(** *** Vocabulary for the properties of the tracker *)

(** The state a status response maps an entry to ([checkAuctionStatus]
    leaves the state alone when the query fails). *)
Definition polledState (response : outcome AuctionStatus) (a : auction_entry)
    : AuctionState :=
  match response with
  | Thrown _ => state a
  | Returned s => (mapStatus s a).1
  end.

(** The entry after a status response, but for its state. *)
Definition polledEntry (response : outcome AuctionStatus) (a : auction_entry)
    : auction_entry :=
  match response with
  | Thrown _ => a
  | Returned s => (mapStatus s a).2
  end.

(** The tracker after the status check of the order [orderHash]: the
    query is on record and, where the order is registered, its entry is
    the polled entry in the polled state. *)
Definition afterCheck (orderHash : string) (response : outcome AuctionStatus)
    (tr : tracker) : tracker :=
  match activeAuctions tr !! orderHash with
  | None => asked orderHash tr
  | Some a =>
      set_auctions
        (<[orderHash := with_state (polledState response a) (polledEntry response a)]>
           (activeAuctions tr))
        (asked orderHash tr)
  end.

End FusionAuctionTracker.

(** ** The wire format, in the terms the properties are stated in *)
Module Codec.
Import JS WormholeBridge.

(** The unsigned big-endian value of a byte sequence. *)
Definition be_value (a : Uint8Array) : Z :=
  fold_left (fun acc b => acc * 256 + byteZ b) a 0.

(** The signature count a buffer declares: its sixth byte, as the loop
    of [parseVAA] takes it (no iteration when the byte is missing). *)
Definition sigCount (vaaBytes : Uint8Array) : nat :=
  iterations (get vaaBytes 5).

(** The size that count implies for a message with an empty payload. *)
Definition impliedLength (vaaBytes : Uint8Array) : nat :=
  (1 + 4 + 1 + 66 * sigCount vaaBytes + 4 + 4 + 2 + 32 + 8 + 1)%nat.

(** The offset of the [sequence] field. *)
Definition sequenceOffset (vaaBytes : Uint8Array) : nat :=
  (1 + 4 + 1 + 66 * sigCount vaaBytes + 4 + 4 + 2 + 32)%nat.

(** The offset at which the signatures end. *)
Definition bodyOffset (vaaBytes : Uint8Array) : nat :=
  (1 + 4 + 1 + 66 * sigCount vaaBytes)%nat.

(** The [len] bytes of a buffer from [off] on. *)
Definition field (vaaBytes : Uint8Array) (off len : nat) : Uint8Array :=
  slice vaaBytes off (off + len).

(** The byte of value [z mod 256]. *)
Definition byte_of_Z (z : Z) : Byte.byte :=
  default Byte.x00 (Byte.of_N (Z.to_N (z mod 256))).

(** [n] bytes, most significant first. *)
Fixpoint be_bytes (n : nat) (z : Z) : Uint8Array :=
  match n with
  | O => []
  | S n' => be_bytes n' (z / 256) ++ [byte_of_Z z]
  end.

(** The number a field holds. *)
Definition num_of (v : value) : Z :=
  match v with
  | num z => z
  | undefined => 0
  end.

(** The bytes a string of hexadecimal digit pairs stands for. *)
Fixpoint unhex (s : string) : Uint8Array :=
  match s with
  | String c1 (String c2 s') =>
      match hex_value c1, hex_value c2 with
      | Some h, Some l => byte_of_Z (h * 16 + l) :: unhex s'
      | _, _ => []
      end
  | _ => []
  end.

(** The bytes behind a [0x]-prefixed hexadecimal string. *)
Definition unhexlify (s : string) : Uint8Array :=
  match s with
  | String _ (String _ digits) => unhex digits
  | _ => []
  end.

(** One signature on the wire: the guardian index, then the 65 bytes. *)
Definition encodeSignature (s : SignatureSet) : Uint8Array :=
  byte_of_Z (num_of (guardianIndex s)) :: signature s.

(** Modelled from the spec: the serializer [encode], which the
    repository does not have ("encode(Attestation) -> bytes (for testing
    round-trips; production only decodes ...)").  The layout is the one
    of the spec's data model: version (1 byte), guardianSetIndex (4),
    the number of signatures (1), each signature as guardianIndex (1)
    and 65 bytes, timestamp (4), nonce (4), emitterChain (2),
    emitterAddress (32), sequence (8), consistencyLevel (1), payload;
    multi-byte integers are unsigned and big-endian. *)
Definition encode (a : VAA) : Uint8Array :=
  [byte_of_Z (num_of (version a))]
  ++ be_bytes 4 (num_of (guardianSetIndex a))
  ++ [byte_of_Z (Z.of_nat (length (signatures a)))]
  ++ concat (map encodeSignature (signatures a))
  ++ be_bytes 4 (num_of (timestamp a))
  ++ be_bytes 4 (num_of (nonce a))
  ++ be_bytes 2 (num_of (emitterChain a))
  ++ unhexlify (emitterAddress a)
  ++ be_bytes 8 (sequence a)
  ++ [byte_of_Z (num_of (consistencyLevel a))]
  ++ payload a.

(** [v] is an unsigned integer of [bits] bits. *)
Definition unsigned (bits : Z) (v : value) : bool :=
  match v with
  | num z => (0 <=? z) && (z <? 2 ^ bits)
  | undefined => false
  end.

(** A guardian index of one byte and a signature of 65. *)
Definition well_formed_signature (s : SignatureSet) : bool :=
  unsigned 8 (guardianIndex s) && bool_decide (length (signature s) = 65%nat).

(** Modelled from the spec: a well-formed Attestation, field by field
    as the spec's data model sizes them, with at most 255 signatures. *)
Definition well_formed (a : VAA) : bool :=
  unsigned 8 (version a)
  && unsigned 32 (guardianSetIndex a)
  && (length (signatures a) <=? 255)%nat
  && forallb well_formed_signature (signatures a)
  && unsigned 32 (timestamp a)
  && unsigned 32 (nonce a)
  && unsigned 16 (emitterChain a)
  && bool_decide (emitterAddress a = hexlify (unhexlify (emitterAddress a)))
  && bool_decide (length (unhexlify (emitterAddress a)) = 32%nat)
  && (0 <=? sequence a) && (sequence a <? 2 ^ 64)
  && unsigned 8 (consistencyLevel a).

(** A header of six bytes declaring no signature, then [n] zero
    bytes. *)
Definition zeros_after_header (b1 : Byte.byte) (n : nat) : Uint8Array :=
  [Byte.x01; b1; Byte.x00; Byte.x00; Byte.x00; Byte.x00]
  ++ List.repeat Byte.x00 n.

End Codec.

(** ** Concrete surroundings, for the examples *)
Module Scenarios.
Import JS WormholeBridge.

(** An attestation without signatures whose guardian-set index is [g]. *)
Definition attestation (g : Z) : VAA :=
  {| version := num 1;
     guardianSetIndex := num g;
     signatures := [];
     timestamp := num 1700000000;
     nonce := num 7;
     emitterChain := num 2;
     emitterAddress := hexlify (List.repeat Byte.x00 31 ++ [Byte.x2a]);
     sequence := 7;
     consistencyLevel := num 1;
     payload := [Byte.xca; Byte.xfe] |}.

(** The same with two signatures, of guardians 0 and 3. *)
Definition signedAttestation : VAA :=
  {| version := num 1;
     guardianSetIndex := num 4;
     signatures :=
       [ {| guardianIndex := num 0; signature := List.repeat Byte.xab 65 |};
         {| guardianIndex := num 3; signature := List.repeat Byte.xcd 65 |} ];
     timestamp := num 1700000000;
     nonce := num 7;
     emitterChain := num 2;
     emitterAddress := hexlify (List.repeat Byte.x00 31 ++ [Byte.x2a]);
     sequence := 18446744073709551615;
     consistencyLevel := num 200;
     payload := [Byte.xca; Byte.xfe] |}.

Definition sampleEthers : Ethers :=
  {| id := fun signature => "keccak256:" +:+ signature;
     parseUnits := fun amount decimals => Returned 1000000000000000000;
     zeroPadValue := fun value length => Returned value;
     decodeSequence := fun data => Returned 7 |}.

(** The log entry the core contract writes when a message is
    published. *)
Definition publishedLog : Log :=
  {| topics :=
       [id sampleEthers "LogMessagePublished(address,uint64,uint32,bytes,uint8)"];
     data := "0x07" |}.

(** Some other log entry. *)
Definition otherLog : Log :=
  {| topics := ["keccak256:Transfer(address,address,uint256)"];
     data := "0x01" |}.



(** A guardian network of which every host answers at once, with
    [bytes]. *)
Definition promptNetwork (bytes : Uint8Array) : Network :=
  fun attempt url => Response true (Json (Some bytes)).

Definition statusOf (s : string) : FusionAuctionTracker.AuctionStatus :=
  {| FusionAuctionTracker.status := s;
     FusionAuctionTracker.status_resolver := None;
     FusionAuctionTracker.fills := None |}.

(** The tracker that the statements of [trackOrder] and [startPolling]
    describe for one order registered at clock reading 0 with the
    default timeout, the order being in state [s]: the entry, and its
    timer 0. *)
Definition tracking (s : FusionAuctionTracker.AuctionState)
    : FusionAuctionTracker.tracker :=
  {| FusionAuctionTracker.activeAuctions :=
       {[ "0x0rder" :=
            {| FusionAuctionTracker.state := s;
               FusionAuctionTracker.resolver := None;
               FusionAuctionTracker.startTime := 0;
               FusionAuctionTracker.timeoutMs :=
                 FusionAuctionTracker.defaultTimeoutMinutes * 60 * 1000;
               FusionAuctionTracker.pollInterval := Some 0%nat |} ]};
     FusionAuctionTracker.intervals := {[ 0%nat := "0x0rder" ]};
     FusionAuctionTracker.nextHandle := 1%nat;
     FusionAuctionTracker.emitted := [];
     FusionAuctionTracker.queries := [] |}.

(** A buffer with two signatures, of guardians 0 and 3, and nothing but
    zero bytes after them. *)
Definition twoSignatures : Uint8Array :=
  [Byte.x01; Byte.x00; Byte.x00; Byte.x00; Byte.x04; Byte.x02]
  ++ [Byte.x00] ++ List.repeat Byte.xab 65
  ++ [Byte.x03] ++ List.repeat Byte.xcd 65
  ++ List.repeat Byte.x00 51.

(** A receipt in which the published message comes second and is
    followed by a second message. *)
Definition laterLog : Log :=
  {| topics :=
       [id sampleEthers "LogMessagePublished(address,uint64,uint32,bytes,uint8)";
        "0x00"];
     data := "0x08" |}.

Definition busyReceipt : TransactionReceipt :=
  {| logs := [otherLog; publishedLog; laterLog] |}.

(** Listeners over a counter: listener 1 throws, the others count. *)
Definition countingHandlers : EventEmitter.handlers nat string :=
  fun l args n =>
    if bool_decide (l = 1%nat) then (Thrown (Error "listener failed"), n)
    else (Returned tt, S n).

Definition threeListeners : EventEmitter.emitter :=
  {| EventEmitter.events := {[ "refund_needed" := [0; 1; 2]%nat ]};
     EventEmitter.maxListeners := 10 |}.

Definition freshWorld : EventEmitter.world nat string :=
  {| EventEmitter.user := 0%nat; EventEmitter.invoked := [];
     EventEmitter.console := [] |}.

End Scenarios.

(* ===================================================================== *)
(** * Part II: properties                                                 *)
(* ===================================================================== *)

Import JS.

(** ** JavaScript primitives *)
Section JSFacts.

Lemma byteZ_range (b : Byte.byte) : 0 <= byteZ b < 256.
Proof.
  unfold byteZ. pose proof (Byte.to_N_bounded b). lia.
Qed.

Lemma get_lookup (a : Uint8Array) (i : nat) (b : Byte.byte) :
  a !! i = Some b -> get a i = num (byteZ b).
Proof. intros H. unfold get. by rewrite H. Qed.

Lemma get_beyond (a : Uint8Array) (i : nat) :
  (length a <= i)%nat -> get a i = undefined.
Proof.
  intros H. unfold get. by rewrite (lookup_ge_None_2 a i H).
Qed.

Lemma slice_nil (a : Uint8Array) (s e : nat) :
  (length a <= s)%nat -> slice a s e = [].
Proof.
  intros H. unfold slice. rewrite drop_ge by done. by rewrite take_nil.
Qed.

Lemma slice_cons (a : Uint8Array) (s e : nat) :
  (s < length a)%nat -> (s < e)%nat ->
  exists b rest, slice a s e = b :: rest.
Proof.
  intros Hs He. unfold slice.
  destruct (drop s a) as [|b rest] eqn:Hd.
  - apply (f_equal length) in Hd. rewrite length_drop in Hd. simpl in Hd. lia.
  - destruct (e - s)%nat as [|k] eqn:Hk; [lia|]. simpl. eauto.
Qed.

Lemma ToInt32_small (z : Z) : - 2 ^ 31 <= z < 2 ^ 31 -> ToInt32 z = z.
Proof.
  intros H. unfold ToInt32. rewrite Z.mod_small; lia.
Qed.

Lemma ToInt32_high (z : Z) : 2 ^ 31 <= z < 2 ^ 32 -> ToInt32 z = z - 2 ^ 32.
Proof.
  intros H. unfold ToInt32.
  replace (z + 2 ^ 31) with ((z - 2 ^ 31) + 1 * 2 ^ 32) by lia.
  rewrite Z.mod_add by lia. rewrite Z.mod_small; lia.
Qed.

Lemma ToInt32_range (z : Z) : - 2 ^ 31 <= ToInt32 z < 2 ^ 31.
Proof.
  unfold ToInt32. pose proof (Z.mod_pos_bound (z + 2 ^ 31) (2 ^ 32)). lia.
Qed.

Lemma hex_value_digit (n : N) :
  (n < 16)%N -> hex_value (hex_digit n) = Some (Z.of_N n).
Proof.
  intros H.
  assert (Hn : List.In n (map N.of_nat (seq 0 16))).
  { apply List.in_map_iff. exists (N.to_nat n). split; [lia|].
    apply List.in_seq. lia. }
  simpl in Hn.
  repeat (destruct Hn as [<-|Hn]; [reflexivity|]). destruct Hn.
Qed.

Lemma parse_hex_byte (acc : Z) (b : Byte.byte) (s : string) :
  parse_hex acc (hex_of_byte b +:+ s) = parse_hex (acc * 256 + byteZ b) s.
Proof.
  unfold hex_of_byte.
  change (parse_hex acc
            (String (hex_digit (Byte.to_N b `div` 16))
               (String (hex_digit (Byte.to_N b `mod` 16)) s)) =
          parse_hex (acc * 256 + byteZ b) s).
  cbn [parse_hex].
  pose proof (Byte.to_N_bounded b) as Hb.
  rewrite !hex_value_digit.
  - f_equal. unfold byteZ.
    rewrite N2Z.inj_div, N2Z.inj_mod. cbn [Z.of_N].
    pose proof (Z.div_mod (Z.of_N (Byte.to_N b)) 16). lia.
  - apply N.mod_lt. lia.
  - apply N.Div0.div_lt_upper_bound. lia.
Qed.

Lemma parse_hex_toHex (a : Uint8Array) (acc : Z) :
  parse_hex acc (toHex a) =
  Some (fold_left (fun acc b => acc * 256 + byteZ b) a acc).
Proof.
  revert acc. induction a as [|b a IH]; intros acc; [reflexivity|].
  cbn [toHex fold_left]. rewrite parse_hex_byte. apply IH.
Qed.

(** [BigInt('0x' + hex)] of a byte sequence: its unsigned big-endian
    value, unless the sequence is empty. *)
Lemma BigInt_0x_toHex (a : Uint8Array) :
  BigInt_0x (toHex a) =
  match a with
  | [] => Thrown (SyntaxError "Cannot convert 0x to a BigInt")
  | _ :: _ => Returned (Codec.be_value a)
  end.
Proof.
  destruct a as [|b a]; [reflexivity|].
  unfold BigInt_0x. rewrite parse_hex_toHex.
  unfold hex_of_byte. reflexivity.
Qed.

(** [x * 2^n | y] adds up when [y] fits below bit [n], whatever the
    sign of [x]. *)
Lemma lor_shifted (x y n : Z) :
  0 <= n -> 0 <= y < 2 ^ n -> Z.lor (x * 2 ^ n) y = x * 2 ^ n + y.
Proof.
  intros Hn Hy.
  rewrite <- (Z.add_lor_land (x * 2 ^ n) y).
  assert (Hland : Z.land (x * 2 ^ n) y = 0).
  { apply Z.bits_inj'. intros m Hm.
    rewrite Z.land_spec, Z.bits_0.
    destruct (Z.lt_ge_cases m n) as [Hlt|Hge].
    - rewrite Z.mul_pow2_bits_low by lia. reflexivity.
    - rewrite <- (Z.mod_small y (2 ^ n)) by lia.
      rewrite Z.mod_pow2_bits_high by lia. apply andb_false_r. }
  rewrite Hland. lia.
Qed.

Lemma shl_num (a k : Z) :
  - 2 ^ 31 <= a < 2 ^ 31 -> 0 <= k < 32 ->
  shl (num a) k = num (ToInt32 (a * 2 ^ k)).
Proof.
  intros Ha Hk. unfold shl, to_int32.
  rewrite (ToInt32_small a) by lia.
  replace (Z.land k 31) with k.
  - by rewrite Z.shiftl_mul_pow2 by lia.
  - change 31 with (Z.ones 5). rewrite Z.land_ones by lia.
    rewrite Z.mod_small; lia.
Qed.

Lemma bor_num (x y : Z) :
  - 2 ^ 31 <= x < 2 ^ 31 -> - 2 ^ 31 <= y < 2 ^ 31 ->
  bor (num x) (num y) = num (Z.lor x y).
Proof.
  intros Hx Hy. unfold bor, to_int32. by rewrite !ToInt32_small by lia.
Qed.

(** The four-byte read of [parseVAA]: the big-endian value of the
    bytes, taken as a signed 32-bit integer. *)
Lemma be32_read (a b c d : Z) :
  0 <= a < 256 -> 0 <= b < 256 -> 0 <= c < 256 -> 0 <= d < 256 ->
  bor (bor (bor (shl (num a) 24) (shl (num b) 16)) (shl (num c) 8)) (num d)
  = num (ToInt32 (((a * 256 + b) * 256 + c) * 256 + d)).
Proof.
  intros Ha Hb Hc Hd.
  rewrite !shl_num by lia.
  rewrite (ToInt32_small (b * 2 ^ 16)), (ToInt32_small (c * 2 ^ 8)) by lia.
  assert (Hhi : exists a', ToInt32 (a * 2 ^ 24) = a' * 2 ^ 24
                /\ - 128 <= a' < 128
                /\ ToInt32 (((a * 256 + b) * 256 + c) * 256 + d)
                   = ((a' * 256 + b) * 256 + c) * 256 + d).
  { destruct (Z.lt_ge_cases a 128).
    - exists a. rewrite !ToInt32_small by lia. lia.
    - exists (a - 256). rewrite !ToInt32_high by lia. lia. }
  destruct Hhi as (a' & -> & Ha' & ->).
  rewrite bor_num by lia.
  rewrite (lor_shifted a' (b * 2 ^ 16) 24) by lia.
  replace (a' * 2 ^ 24 + b * 2 ^ 16) with ((a' * 256 + b) * 2 ^ 16) by lia.
  rewrite bor_num by lia.
  rewrite (lor_shifted (a' * 256 + b) (c * 2 ^ 8) 16) by lia.
  replace ((a' * 256 + b) * 2 ^ 16 + c * 2 ^ 8)
    with (((a' * 256 + b) * 256 + c) * 2 ^ 8) by lia.
  rewrite bor_num by lia.
  rewrite lor_shifted by lia. f_equal; lia.
Qed.

(** The two-byte read of [parseVAA]: the unsigned big-endian value. *)
Lemma be16_read (a b : Z) :
  0 <= a < 256 -> 0 <= b < 256 ->
  bor (shl (num a) 8) (num b) = num (a * 256 + b).
Proof.
  intros Ha Hb.
  rewrite shl_num by lia. rewrite (ToInt32_small (a * 2 ^ 8)) by lia.
  rewrite bor_num by lia.
  rewrite lor_shifted by lia. f_equal; lia.
Qed.

(** An element read, as a bit operation takes it: a byte, or 0 past
    the end. *)
Lemma to_int32_get (a : Uint8Array) (i : nat) : 0 <= to_int32 (get a i) < 256.
Proof.
  unfold get. destruct (a !! i) as [b|]; simpl; [|lia].
  pose proof (byteZ_range b). rewrite ToInt32_small; lia.
Qed.

Lemma shl_to_int32 (v : value) (k : Z) :
  - 2 ^ 31 <= to_int32 v < 2 ^ 31 -> shl v k = shl (num (to_int32 v)) k.
Proof.
  intros H. unfold shl. cbn [to_int32]. by rewrite (ToInt32_small (to_int32 v)).
Qed.

Lemma bor_to_int32_r (v w : value) :
  - 2 ^ 31 <= to_int32 w < 2 ^ 31 -> bor v w = bor v (num (to_int32 w)).
Proof.
  intros H. unfold bor. cbn [to_int32]. by rewrite (ToInt32_small (to_int32 w)).
Qed.

(** The four-byte read of [parseVAA] on any buffer is a signed 32-bit
    integer. *)
Lemma read_int32_signed (a : Uint8Array) (i : nat) :
  exists z,
    bor (bor (bor (shl (get a i) 24) (shl (get a (i + 1)) 16))
             (shl (get a (i + 2)) 8))
        (get a (i + 3)) = num z
    /\ - 2 ^ 31 <= z < 2 ^ 31.
Proof.
  pose proof (to_int32_get a i). pose proof (to_int32_get a (i + 1)).
  pose proof (to_int32_get a (i + 2)). pose proof (to_int32_get a (i + 3)).
  rewrite (shl_to_int32 (get a i)), (shl_to_int32 (get a (i + 1))),
    (shl_to_int32 (get a (i + 2))), (bor_to_int32_r _ (get a (i + 3))) by lia.
  rewrite be32_read by done.
  eexists. split; [reflexivity|]. apply ToInt32_range.
Qed.

End JSFacts.

(** ** The attestation codec: [parseVAA] *)
Section ParseVAA.
Import WormholeBridge Codec.

Lemma parseSignatures_index (vaaBytes : Uint8Array) (n index : nat)
    (acc : list SignatureSet) :
  (parseSignatures vaaBytes n index acc).2 = (index + 66 * n)%nat.
Proof.
  revert index acc. induction n as [|n IH]; intros index acc; simpl.
  - lia.
  - rewrite IH. lia.
Qed.

Lemma parseSignatures_length (vaaBytes : Uint8Array) (n index : nat)
    (acc : list SignatureSet) :
  length (parseSignatures vaaBytes n index acc).1 = (length acc + n)%nat.
Proof.
  revert index acc. induction n as [|n IH]; intros index acc; simpl.
  - lia.
  - rewrite IH, length_app. simpl. lia.
Qed.

(** C1, as the code has it.  [parseVAA] checks no length.  On a buffer
    shorter than the size its signature count implies, it throws the
    SyntaxError of [BigInt('0x')] when the buffer ends at or before the
    first byte of the sequence field, and otherwise returns a record
    whose [consistencyLevel] is [undefined] and whose payload is
    empty. *)
Theorem parseVAA_short_buffer (vaaBytes : Uint8Array) :
  (length vaaBytes < impliedLength vaaBytes)%nat ->
  ((length vaaBytes <= sequenceOffset vaaBytes)%nat ->
   parseVAA vaaBytes = Thrown (SyntaxError "Cannot convert 0x to a BigInt"))
  /\
  ((sequenceOffset vaaBytes < length vaaBytes)%nat ->
   exists v, parseVAA vaaBytes = Returned v
             /\ consistencyLevel v = undefined
             /\ payload v = []).
Proof.
  intros Hshort. unfold impliedLength in Hshort. unfold sequenceOffset.
  unfold parseVAA.
  change (iterations (get vaaBytes (0 + 1 + 4))) with (sigCount vaaBytes).
  pose proof (parseSignatures_index vaaBytes (sigCount vaaBytes) (0 + 1 + 4 + 1) [])
    as Hidx.
  destruct (parseSignatures vaaBytes (sigCount vaaBytes) (0 + 1 + 4 + 1) [])
    as [sigs index]. simpl in Hidx. subst index.
  rewrite BigInt_0x_toHex.
  split; intros Hlen.
  - rewrite slice_nil by lia. reflexivity.
  - match goal with
    | |- context [match slice vaaBytes ?s ?e with [] => _ | _ :: _ => _ end] =>
        destruct (slice_cons vaaBytes s e) as (b & rest & ->); [lia | lia |]
    end.
    eexists. split; [reflexivity|]. cbn [consistencyLevel payload]. split.
    + apply get_beyond. lia.
    + unfold slice_from. apply drop_ge. lia.
Qed.

(** The theorem at a buffer of 49 zero bytes (one byte of sequence) and
    at one of 48 (none). *)
Lemma parseVAA_short_buffer_witness :
  (exists v, parseVAA (List.repeat Byte.x00 49) = Returned v
             /\ consistencyLevel v = undefined /\ payload v = [])
  /\ parseVAA (List.repeat Byte.x00 48)
     = Thrown (SyntaxError "Cannot convert 0x to a BigInt").
Proof.
  split.
  - apply (parseVAA_short_buffer (List.repeat Byte.x00 49)); vm_compute; lia.
  - apply (parseVAA_short_buffer (List.repeat Byte.x00 48)); vm_compute; lia.
Defined.

(** C1, refuted as stated: a buffer of 56 bytes that declares no
    signature is one byte short of the 57 its count implies, and
    [parseVAA] returns a record for it, the sequence read from 7 bytes
    and [consistencyLevel] left [undefined]. *)
Lemma parseVAA_accepts_truncated :
  (length (zeros_after_header Byte.x00 50)
     < impliedLength (zeros_after_header Byte.x00 50))%nat
  /\ parseVAA (zeros_after_header Byte.x00 50)
     = Returned
         {| version := num 1;
            guardianSetIndex := num 0;
            signatures := [];
            timestamp := num 0;
            nonce := num 0;
            emitterChain := num 0;
            emitterAddress := hexlify (List.repeat Byte.x00 32);
            sequence := 0;
            consistencyLevel := undefined;
            payload := [] |}.
Proof.
  split.
  - vm_compute. lia.
  - vm_compute. reflexivity.
Qed.

Lemma read_bytes4 (a : Uint8Array) (i : nat) :
  (i + 4 <= length a)%nat ->
  exists b0 b1 b2 b3,
    get a i = num (byteZ b0) /\ get a (i + 1) = num (byteZ b1)
    /\ get a (i + 2) = num (byteZ b2) /\ get a (i + 3) = num (byteZ b3)
    /\ field a i 4 = [b0; b1; b2; b3].
Proof.
  intros Hlen.
  destruct (drop i a) as [|b0 [|b1 [|b2 [|b3 rest]]]] eqn:Hd;
    try (apply (f_equal length) in Hd; rewrite length_drop in Hd;
         simpl in Hd; lia).
  exists b0, b1, b2, b3.
  assert (Hget : forall k, get a (i + k) =
                  match (b0 :: b1 :: b2 :: b3 :: rest) !! k with
                  | Some b => num (byteZ b)
                  | None => undefined
                  end).
  { intros k. unfold get. by rewrite <- lookup_drop, Hd. }
  repeat split.
  - rewrite <- (Nat.add_0_r i) at 1. by rewrite Hget.
  - by rewrite Hget.
  - by rewrite Hget.
  - by rewrite Hget.
  - unfold field, slice. replace (i + 4 - i)%nat with 4%nat by lia.
    by rewrite Hd.
Qed.

Lemma read_bytes2 (a : Uint8Array) (i : nat) :
  (i + 2 <= length a)%nat ->
  exists b0 b1,
    get a i = num (byteZ b0) /\ get a (i + 1) = num (byteZ b1)
    /\ field a i 2 = [b0; b1].
Proof.
  intros Hlen.
  destruct (drop i a) as [|b0 [|b1 rest]] eqn:Hd;
    try (apply (f_equal length) in Hd; rewrite length_drop in Hd;
         simpl in Hd; lia).
  exists b0, b1.
  assert (Hget : forall k, get a (i + k) =
                  match (b0 :: b1 :: rest) !! k with
                  | Some b => num (byteZ b)
                  | None => undefined
                  end).
  { intros k. unfold get. by rewrite <- lookup_drop, Hd. }
  repeat split.
  - rewrite <- (Nat.add_0_r i) at 1. by rewrite Hget.
  - by rewrite Hget.
  - unfold field, slice. replace (i + 2 - i)%nat with 2%nat by lia.
    by rewrite Hd.
Qed.

(** The four-byte read at [i], on a buffer that has the four bytes. *)
Lemma read_int32 (a : Uint8Array) (i : nat) :
  (i + 4 <= length a)%nat ->
  bor (bor (bor (shl (get a i) 24) (shl (get a (i + 1)) 16))
           (shl (get a (i + 2)) 8))
      (get a (i + 3))
  = num (ToInt32 (be_value (field a i 4))).
Proof.
  intros Hlen.
  destruct (read_bytes4 a i Hlen) as (b0 & b1 & b2 & b3 & -> & -> & -> & -> & ->).
  rewrite be32_read by apply byteZ_range.
  unfold be_value. cbn [fold_left]. do 2 f_equal; lia.
Qed.

Lemma read_uint16 (a : Uint8Array) (i : nat) :
  (i + 2 <= length a)%nat ->
  bor (shl (get a i) 8) (get a (i + 1)) = num (be_value (field a i 2)).
Proof.
  intros Hlen.
  destruct (read_bytes2 a i Hlen) as (b0 & b1 & -> & -> & ->).
  rewrite be16_read by apply byteZ_range.
  unfold be_value. cbn [fold_left]. f_equal; lia.
Qed.

(** What [parseVAA] makes of a buffer that is long enough, field by
    field. *)
Lemma parseVAA_long_buffer (vaaBytes : Uint8Array) :
  (impliedLength vaaBytes <= length vaaBytes)%nat ->
  exists v,
    parseVAA vaaBytes = Returned v
    /\ version v = get vaaBytes 0
    /\ guardianSetIndex v = num (ToInt32 (be_value (field vaaBytes 1 4)))
    /\ length (signatures v) = sigCount vaaBytes
    /\ timestamp v
       = num (ToInt32 (be_value (field vaaBytes (bodyOffset vaaBytes) 4)))
    /\ nonce v
       = num (ToInt32 (be_value (field vaaBytes (bodyOffset vaaBytes + 4) 4)))
    /\ emitterChain v
       = num (be_value (field vaaBytes (bodyOffset vaaBytes + 8) 2))
    /\ emitterAddress v
       = hexlify (field vaaBytes (bodyOffset vaaBytes + 10) 32)
    /\ sequence v = be_value (field vaaBytes (bodyOffset vaaBytes + 42) 8)
    /\ consistencyLevel v = get vaaBytes (bodyOffset vaaBytes + 50)
    /\ payload v = slice_from vaaBytes (bodyOffset vaaBytes + 51)
    /\ signatures v = (parseSignatures vaaBytes (sigCount vaaBytes) 6 []).1.
Proof.
  intros Hlong. unfold impliedLength in Hlong. unfold bodyOffset.
  unfold parseVAA.
  change (iterations (get vaaBytes (0 + 1 + 4))) with (sigCount vaaBytes).
  set (o := (6 + 66 * sigCount vaaBytes)%nat).
  destruct (parseSignatures vaaBytes (sigCount vaaBytes) (0 + 1 + 4 + 1) [])
    as [sigs index] eqn:Hps.
  assert (Hidx : index = o).
  { pose proof (parseSignatures_index vaaBytes (sigCount vaaBytes) (0 + 1 + 4 + 1) [])
      as H. rewrite Hps in H. cbn [snd] in H. rewrite H. unfold o. lia. }
  assert (Hsigs : length sigs = sigCount vaaBytes).
  { pose proof (parseSignatures_length vaaBytes (sigCount vaaBytes) (0 + 1 + 4 + 1) [])
      as H. rewrite Hps in H. cbn [fst] in H. rewrite H. simpl. lia. }
  subst index.
  rewrite BigInt_0x_toHex.
  replace (o + 4 + 4 + 2 + 32 + 8)%nat with (o + 42 + 8)%nat by lia.
  replace (o + 4 + 4 + 2 + 32)%nat with (o + 42)%nat by lia.
  destruct (slice_cons vaaBytes (o + 42) (o + 42 + 8)) as (b & rest & Hseq);
    [lia | lia |].
  rewrite Hseq.
  eexists. split; [reflexivity|].
  cbn [version guardianSetIndex signatures timestamp nonce emitterChain
       emitterAddress sequence consistencyLevel payload].
  change (0 + 1)%nat with 1%nat.
  rewrite (read_int32 vaaBytes 1) by lia.
  rewrite (read_int32 vaaBytes o) by lia.
  rewrite (read_int32 vaaBytes (o + 4)) by lia.
  replace (o + 4 + 4 + 1)%nat with (o + 8 + 1)%nat by lia.
  replace (o + 4 + 4)%nat with (o + 8)%nat by lia.
  rewrite (read_uint16 vaaBytes (o + 8)) by lia.
  replace (1 + 4 + 1 + 66 * sigCount vaaBytes)%nat with o by (unfold o; lia).
  replace (o + 8 + 2)%nat with (o + 10)%nat by lia.
  rewrite <- Hseq.
  replace (o + 42 + 8 + 1)%nat with (o + 51)%nat by lia.
  replace (o + 42 + 8)%nat with (o + 50)%nat by lia.
  unfold field.
  replace (o + 10 + 32)%nat with (o + 42)%nat by lia.
  replace (o + 42 + 8)%nat with (o + 50)%nat by lia.
  change 6%nat with (0 + 1 + 4 + 1)%nat. rewrite Hps.
  repeat split; done.
Qed.

(** On a buffer at least as long as its signature count implies,
    [parseVAA] returns a record.  The three 32-bit fields are the
    big-endian value of their bytes taken as a signed integer; the
    16-bit and the 64-bit field are unsigned; the address is the
    hexadecimal writing of its 32 bytes; the payload is what follows. *)
Theorem parseVAA_fields (vaaBytes : Uint8Array) :
  (impliedLength vaaBytes <= length vaaBytes)%nat ->
  exists v,
    parseVAA vaaBytes = Returned v
    /\ version v = get vaaBytes 0
    /\ guardianSetIndex v = num (ToInt32 (be_value (field vaaBytes 1 4)))
    /\ length (signatures v) = sigCount vaaBytes
    /\ timestamp v
       = num (ToInt32 (be_value (field vaaBytes (bodyOffset vaaBytes) 4)))
    /\ nonce v
       = num (ToInt32 (be_value (field vaaBytes (bodyOffset vaaBytes + 4) 4)))
    /\ emitterChain v
       = num (be_value (field vaaBytes (bodyOffset vaaBytes + 8) 2))
    /\ emitterAddress v
       = hexlify (field vaaBytes (bodyOffset vaaBytes + 10) 32)
    /\ sequence v = be_value (field vaaBytes (bodyOffset vaaBytes + 42) 8)
    /\ consistencyLevel v = get vaaBytes (bodyOffset vaaBytes + 50)
    /\ payload v = slice_from vaaBytes (bodyOffset vaaBytes + 51).
Proof.
  intros Hlong.
  destruct (parseVAA_long_buffer vaaBytes Hlong)
    as (v & Hv & H1 & H2 & H3 & H4 & H5 & H6 & H7 & H8 & H9 & H10 & _).
  exists v. repeat split; assumption.
Qed.

(** Whatever the buffer, the guardian-set index of a record that
    [parseVAA] returns is a signed 32-bit integer. *)
Lemma parseVAA_guardianSetIndex_int32 (vaaBytes : Uint8Array) (v : VAA) :
  parseVAA vaaBytes = Returned v ->
  exists z, guardianSetIndex v = num z /\ - 2 ^ 31 <= z < 2 ^ 31.
Proof.
  unfold parseVAA. intros H.
  destruct (parseSignatures _ _ _ _) as [sigs index].
  destruct (BigInt_0x _) as [sequence|e]; [|discriminate].
  inversion H; subst v. cbn [guardianSetIndex].
  change (0 + 1)%nat with 1%nat. apply read_int32_signed.
Qed.

(** The theorem at a buffer of 57 zero bytes but for its version. *)
Lemma parseVAA_fields_witness :
  exists v, parseVAA (zeros_after_header Byte.x00 51) = Returned v
            /\ guardianSetIndex v = num 0 /\ sequence v = 0.
Proof.
  destruct (parseVAA_fields (zeros_after_header Byte.x00 51)) as (v & Hv & H);
    [vm_compute; lia|].
  exists v. split; [exact Hv|].
  destruct H as (_ & Hg & _ & _ & _ & _ & _ & Hs & _).
  rewrite Hg, Hs. split; reflexivity.
Defined.

(** C3 at a failing input: 57 bytes whose guardian-set index is
    [80 00 00 00].  The unsigned big-endian value of these four bytes is
    2147483648; [parseVAA] returns -2147483648. *)
Theorem parseVAA_guardianSetIndex_negative :
  be_value (field (zeros_after_header Byte.x80 51) 1 4) = 2147483648
  /\ exists v, parseVAA (zeros_after_header Byte.x80 51) = Returned v
               /\ guardianSetIndex v = num (-2147483648).
Proof.
  split; [reflexivity|].
  eexists. split; [vm_compute; reflexivity|]. reflexivity.
Qed.

End ParseVAA.

(** ** The guardian network client: [getSignedVAA] *)
Section GetSignedVAA.
Import WormholeBridge Scenarios.

Variable net : Network.
Variable path : string.

(** No answer of a host makes the [try] block return the bytes: where
    the response is [ok] and carries them, the call of [logger.info]
    that stands before the [return] throws, into the [catch] of the
    loop. *)
Lemma tryHost_no_bytes (attempt : nat) (url : string) (bytes : Uint8Array) :
  tryHost net attempt url ≠ Returned (Some bytes).
Proof.
  unfold tryHost.
  destruct (net attempt url) as [e|[] [e|[b|]]]; discriminate.
Qed.

(** So the loop over the hosts asks every host and comes out with
    nothing. *)
Lemma hostsLoop_asks_all (attempt : nat) (hosts : list string)
    (done : list effect) :
  hostsLoop net attempt path hosts done
  = (None, done ++ requestsTo path attempt hosts).
Proof.
  revert done. induction hosts as [|host hosts IH]; intros done.
  - simpl. by rewrite app_nil_r.
  - cbn [hostsLoop requestsTo map].
    pose proof (tryHost_no_bytes attempt (host +:+ path)) as Hno.
    destruct (tryHost net attempt (host +:+ path)) as [[bytes|]|e];
      [by destruct (Hno bytes)| |];
      rewrite IH; unfold requestsTo; by rewrite <- app_assoc.
Qed.

(** A round of the loop, were it entered, ends after its five requests
    in the TypeError of the [logger.info] that stands before the
    delay. *)
Lemma attemptsLoop_first_round (rounds attempt : nat) (done : list effect) :
  attemptsLoop net path (S rounds) attempt done
  = (Thrown (Logger.notAFunction "info"),
     done ++ requestsTo path attempt GUARDIAN_RPC_HOSTS).
Proof.
  cbn [attemptsLoop]. by rewrite hostsLoop_asks_all.
Qed.

End GetSignedVAA.

(** C4.  [getSignedVAA] fails before it asks a guardian host: its first
    statement is a call of [logger.info], and [logger.info] is not a
    function.
    - On a network whose hosts all answer at once with the attestation,
      the call for sequence 7 of the emitter [ab] on chain 2 throws
      that TypeError, having sent no request.
    - So it is on every network and for every emitter and sequence: no
      request, no delay, no payload returned, and the error is a
      TypeError and not [NotAvailable]. *)
Theorem getSignedVAA_asks_no_host :
  WormholeBridge.getSignedVAA (Scenarios.promptNetwork [Byte.x01])
    (num 2) "ab" 7
  = (Thrown (Logger.notAFunction "info"), [])
  /\ forall (net : WormholeBridge.Network) (emitterChain : value)
       (emitterAddress : string) (sequence : Z),
       let r := WormholeBridge.getSignedVAA net emitterChain emitterAddress
                  sequence in
       r.2 = []
       /\ is_thrown_TypeError r.1 = true
       /\ r.1 ≠ Thrown WormholeBridge.NotAvailable
       /\ forall bytes, r.1 ≠ Returned bytes.
Proof.
  split; [reflexivity|].
  intros net emitterChain emitterAddress sequence. cbn.
  repeat split; discriminate.
Qed.

(** ** The transfer orchestrator *)
Section Transfers.
Import WormholeBridge Scenarios.



(** [transferTokens] stops at its first statement, a call of
    [logger.info]: nothing is checked, nothing is submitted, and the
    service is as it was. *)
Lemma transferTokens_throws (E : Ethers) (C : Chain) (st : service)
    (sourceChainId targetChainId : Z)
    (tokenAddress amount recipientAddress : string) :
  transferTokens E C st sourceChainId targetChainId tokenAddress amount
    recipientAddress
  = (Thrown (Logger.notAFunction "info"), st).
Proof. reflexivity. Qed.


(** [bridgeTokens] fails with its lock. *)
Lemma bridgeTokens_throws (E : Ethers) (C : Chain) (net : Network)
    (st : service) (sourceChainId targetChainId : Z)
    (tokenAddress amount recipientAddress : string) :
  bridgeTokens E C net st sourceChainId targetChainId tokenAddress amount
    recipientAddress
  = (Thrown (Logger.notAFunction "info"), st, []).
Proof. reflexivity. Qed.








End Transfers.

(** ** Round trips through the codec *)
Section RoundTrip.
Import WormholeBridge Codec Scenarios.

(** C2 at a failing input: a well-formed attestation whose guardian-set
    index is 2^31.  Encoded, its index bytes are [80 00 00 00];
    [parseVAA] reads them back as -2^31, so the decoded record is not
    the encoded one.  No other encoding would do: [parseVAA] returns
    this attestation for no buffer at all. *)
Theorem roundtrip_fails_on_high_bit :
  well_formed (attestation 2147483648) = true
  /\ parseVAA (encode (attestation 2147483648))
     = Returned (attestation (-2147483648))
  /\ parseVAA (encode (attestation 2147483648))
     ≠ Returned (attestation 2147483648)
  /\ forall vaaBytes,
       parseVAA vaaBytes ≠ Returned (attestation 2147483648).
Proof.
  assert (Hno : forall vaaBytes,
             parseVAA vaaBytes ≠ Returned (attestation 2147483648)).
  { intros vaaBytes H.
    destruct (parseVAA_guardianSetIndex_int32 _ _ H) as (z & Hz & Hrange).
    simpl in Hz. inversion Hz. lia. }
  split; [vm_compute; reflexivity|]. split; [vm_compute; reflexivity|].
  split; [apply Hno | exact Hno].
Qed.

(** Below 2^31 the same attestation comes back as it was. *)
Example roundtrip_small_index :
  parseVAA (encode (attestation 5)) = Returned (attestation 5).
Proof. vm_compute. reflexivity. Qed.

(** *** The round trip where the sign does not interfere *)

Lemma byteZ_byte_of_Z (z : Z) : byteZ (byte_of_Z z) = z mod 256.
Proof.
  unfold byteZ, byte_of_Z.
  pose proof (Z.mod_pos_bound z 256 ltac:(lia)) as Hz.
  destruct (Byte.of_N (Z.to_N (z mod 256))) as [b|] eqn:Hb.
  - apply Byte.to_of_N in Hb. simpl. rewrite Hb. lia.
  - apply Byte.of_N_None_iff in Hb. lia.
Qed.

Lemma byteZ_byte_of_Z_small (z : Z) :
  0 <= z < 256 -> byteZ (byte_of_Z z) = z.
Proof. intros H. rewrite byteZ_byte_of_Z. by apply Z.mod_small. Qed.

Lemma be_value_app (l : Uint8Array) (b : Byte.byte) :
  be_value (l ++ [b]) = be_value l * 256 + byteZ b.
Proof. unfold be_value. by rewrite fold_left_app. Qed.

Lemma length_be_bytes (n : nat) (z : Z) : length (be_bytes n z) = n.
Proof.
  revert z. induction n as [|n IH]; intros z; [done|].
  cbn [be_bytes]. rewrite length_app, IH. simpl. lia.
Qed.

(** [be_bytes] is the big-endian writing of a number that fits. *)
Lemma be_value_be_bytes (n : nat) (z : Z) :
  0 <= z < 256 ^ Z.of_nat n -> be_value (be_bytes n z) = z.
Proof.
  revert z. induction n as [|n IH]; intros z Hz.
  - simpl in *. unfold be_value. simpl. lia.
  - cbn [be_bytes]. rewrite be_value_app, byteZ_byte_of_Z.
    rewrite Nat2Z.inj_succ, Z.pow_succ_r in Hz by lia.
    rewrite IH.
    + pose proof (Z.div_mod z 256). lia.
    + split; [apply Z.div_pos; lia|].
      apply Z.div_lt_upper_bound; lia.
Qed.

Lemma unsigned_num (bits : Z) (v : value) :
  unsigned bits v = true -> exists z, v = num z /\ 0 <= z < 2 ^ bits.
Proof.
  destruct v as [|z]; [done|]. simpl. intros H.
  apply andb_true_iff in H as [H1 H2]. exists z. split; [done|]. lia.
Qed.

Lemma length_encodeSignatures (sigs : list SignatureSet) :
  forallb well_formed_signature sigs = true ->
  length (concat (map encodeSignature sigs)) = (66 * length sigs)%nat.
Proof.
  induction sigs as [|s sigs IH]; intros H; [done|].
  simpl in H. apply andb_true_iff in H as [Hs Hsigs].
  apply andb_true_iff in Hs as [_ Hlen]. apply bool_decide_eq_true in Hlen.
  cbn [map concat]. rewrite length_app, (IH Hsigs).
  unfold encodeSignature. simpl. lia.
Qed.

(** The loop of [parseVAA] over encoded signatures reads them back. *)
Lemma parseSignatures_encoded (sigs : list SignatureSet)
    (before after : Uint8Array) (acc : list SignatureSet) :
  forallb well_formed_signature sigs = true ->
  parseSignatures (before ++ concat (map encodeSignature sigs) ++ after)
    (length sigs) (length before) acc
  = (acc ++ sigs, (length before + 66 * length sigs)%nat).
Proof.
  revert before acc. induction sigs as [|s sigs IH]; intros before acc Hwf.
  - simpl. rewrite app_nil_r. f_equal. lia.
  - simpl in Hwf. apply andb_true_iff in Hwf as [Hs Hsigs].
    apply andb_true_iff in Hs as [Hg Hlen]. apply bool_decide_eq_true in Hlen.
    apply unsigned_num in Hg as (g & Hg & Hrange).
    cbn [length parseSignatures map concat].
    assert (Hshape :
      before ++ (encodeSignature s ++ concat (map encodeSignature sigs)) ++ after
      = (before ++ encodeSignature s)
        ++ concat (map encodeSignature sigs) ++ after)
      by (by rewrite <- !app_assoc).
    assert (Hindex : (length before + 1 + 65)%nat
                     = length (before ++ encodeSignature s))
      by (rewrite length_app; unfold encodeSignature; simpl; lia).
    assert (Hget :
      get (before ++ (encodeSignature s ++ concat (map encodeSignature sigs))
             ++ after) (length before) = guardianIndex s).
    { unfold get. rewrite lookup_app_r by lia. rewrite Nat.sub_diag.
      unfold encodeSignature. simpl. rewrite Hg. simpl.
      by rewrite byteZ_byte_of_Z_small. }
    assert (Hslice :
      slice (before ++ (encodeSignature s ++ concat (map encodeSignature sigs))
               ++ after) (length before + 1) (length before + 1 + 65)
      = signature s).
    { unfold slice.
      replace (length before + 1 + 65 - (length before + 1))%nat with 65%nat by lia.
      rewrite <- drop_drop, drop_app_length. unfold encodeSignature. simpl.
      rewrite <- app_assoc. by apply take_app_length'. }
    rewrite Hget, Hslice, Hindex, Hshape.
    rewrite (IH (before ++ encodeSignature s) _ Hsigs).
    rewrite <- Hindex. f_equal; [|lia].
    rewrite <- app_assoc. by destruct s.
Qed.

Lemma field_drop (a : Uint8Array) (o k len : nat) :
  field a (o + k) len = take len (drop k (drop o a)).
Proof.
  unfold field, slice. rewrite drop_drop. f_equal. lia.
Qed.

Lemma get_drop (a : Uint8Array) (o k : nat) :
  get a (o + k) = get (drop o a) k.
Proof. unfold get. by rewrite lookup_drop. Qed.

(** [decode (encode a) = a] for every well-formed attestation whose
    guardian-set index, timestamp and nonce are below 2^31. *)
Theorem roundtrip_below_sign_bit (a : VAA) :
  well_formed a = true ->
  num_of (guardianSetIndex a) < 2 ^ 31 ->
  num_of (timestamp a) < 2 ^ 31 ->
  num_of (nonce a) < 2 ^ 31 ->
  parseVAA (encode a) = Returned a.
Proof.
  intros Hwf Hg31 Ht31 Hn31. unfold well_formed in Hwf.
  destruct a as [ver gsi sigs ts nc chain addr seqn cl pl]. simpl in *.
  apply andb_true_iff in Hwf as [Hwf Hcl].
  apply andb_true_iff in Hwf as [Hwf Hseq64].
  apply andb_true_iff in Hwf as [Hwf Hseq0].
  apply andb_true_iff in Hwf as [Hwf Hlen].
  apply andb_true_iff in Hwf as [Hwf Haddr].
  apply andb_true_iff in Hwf as [Hwf Hchain].
  apply andb_true_iff in Hwf as [Hwf Hnc].
  apply andb_true_iff in Hwf as [Hwf Hts].
  apply andb_true_iff in Hwf as [Hwf Hsigs].
  apply andb_true_iff in Hwf as [Hwf Hcount255].
  apply andb_true_iff in Hwf as [Hver Hgsi].
  apply unsigned_num in Hver as (v0 & -> & Hv0).
  apply unsigned_num in Hgsi as (g0 & -> & Hg0).
  apply unsigned_num in Hts as (t0 & -> & Ht0).
  apply unsigned_num in Hnc as (n0 & -> & Hn0).
  apply unsigned_num in Hchain as (c0 & -> & Hc0).
  apply unsigned_num in Hcl as (l0 & -> & Hl0).
  apply bool_decide_eq_true in Haddr, Hlen.
  apply Nat.leb_le in Hcount255. apply Z.leb_le in Hseq0.
  apply Z.ltb_lt in Hseq64.
  simpl in Hg31, Ht31, Hn31.
  remember (unhexlify addr) as A eqn:HA.
  set (bs := encode _).
  assert (Hbs : bs =
    [byte_of_Z v0; byte_of_Z (g0 / 256 / 256 / 256); byte_of_Z (g0 / 256 / 256);
     byte_of_Z (g0 / 256); byte_of_Z g0; byte_of_Z (Z.of_nat (length sigs))]
    ++ concat (map encodeSignature sigs)
    ++ (be_bytes 4 t0 ++ be_bytes 4 n0 ++ be_bytes 2 c0 ++ A
        ++ be_bytes 8 seqn ++ [byte_of_Z l0] ++ pl)).
  { subst bs. unfold encode.
    cbn [version guardianSetIndex signatures timestamp nonce emitterChain
         emitterAddress sequence consistencyLevel payload num_of].
    rewrite <- HA. reflexivity. }
  clearbody bs. clear HA. subst addr.
  assert (Hcount : sigCount bs = length sigs).
  { unfold sigCount. rewrite Hbs. cbn [app get lookup list_lookup iterations].
    rewrite byteZ_byte_of_Z_small by lia. lia. }
  assert (Hbody : bodyOffset bs = (6 + 66 * length sigs)%nat)
    by (unfold bodyOffset; rewrite Hcount; lia).
  assert (Htail : drop (bodyOffset bs) bs
                  = be_bytes 4 t0 ++ be_bytes 4 n0 ++ be_bytes 2 c0 ++ A
                    ++ be_bytes 8 seqn ++ [byte_of_Z l0] ++ pl).
  { rewrite Hbody, Hbs, app_assoc.
    apply drop_app_length'. rewrite length_app, length_encodeSignatures by done.
    cbn [length]. lia. }
  assert (Hlong : (impliedLength bs <= length bs)%nat).
  { unfold impliedLength. rewrite Hcount, Hbs.
    rewrite !length_app, length_encodeSignatures, !length_be_bytes by done.
    rewrite Hlen. cbn [length]. lia. }
  destruct (parseVAA_long_buffer bs Hlong)
    as (v & -> & Ev & Egsi & _ & Ets & Enc & Echain & Eaddr & Eseq & Ecl & Epl & Es).
  rewrite <- (Nat.add_0_r (bodyOffset bs)) in Ets.
  rewrite field_drop, Htail in Ets, Enc, Echain, Eaddr, Eseq.
  rewrite get_drop, Htail in Ecl.
  unfold slice_from in Epl. rewrite <- drop_drop, Htail in Epl.
  rewrite Hcount in Es.
  change 6%nat with
    (length [byte_of_Z v0; byte_of_Z (g0 / 256 / 256 / 256);
             byte_of_Z (g0 / 256 / 256); byte_of_Z (g0 / 256); byte_of_Z g0;
             byte_of_Z (Z.of_nat (length sigs))]) in Es.
  rewrite Hbs, parseSignatures_encoded in Es by done.
  cbn [fst app] in Es.
  rewrite Hbs in Ev, Egsi. clear Hbs Htail Hlong Hcount Hbody. clear bs.
  repeat (destruct A as [|? A]; [cbn [length] in Hlen; lia|]).
  destruct A; [|cbn [length] in Hlen; lia]. clear Hlen.
  cbn [be_bytes app take drop firstn skipn get lookup list_lookup field slice
       Nat.sub Nat.add] in Ev, Egsi, Ets, Enc, Echain, Eaddr, Eseq, Ecl, Epl.
  destruct v as [ver' gsi' sigs' ts' nc' chain' addr' seqn' cl' pl'].
  cbn [version guardianSetIndex signatures timestamp nonce emitterChain
       emitterAddress sequence consistencyLevel payload]
    in Ev, Egsi, Es, Ets, Enc, Echain, Eaddr, Eseq, Ecl, Epl.
  subst ver' gsi' sigs' ts' nc' chain' addr' seqn' cl' pl'.
  do 2 f_equal.
  - by rewrite byteZ_byte_of_Z_small.
  - change [byte_of_Z (g0 / 256 / 256 / 256); byte_of_Z (g0 / 256 / 256);
            byte_of_Z (g0 / 256); byte_of_Z g0] with (be_bytes 4 g0).
    rewrite be_value_be_bytes by (simpl; lia). by rewrite ToInt32_small by lia.
  - change [byte_of_Z (t0 / 256 / 256 / 256); byte_of_Z (t0 / 256 / 256);
            byte_of_Z (t0 / 256); byte_of_Z t0] with (be_bytes 4 t0).
    rewrite be_value_be_bytes by (simpl; lia). by rewrite ToInt32_small by lia.
  - change [byte_of_Z (n0 / 256 / 256 / 256); byte_of_Z (n0 / 256 / 256);
            byte_of_Z (n0 / 256); byte_of_Z n0] with (be_bytes 4 n0).
    rewrite be_value_be_bytes by (simpl; lia). by rewrite ToInt32_small by lia.
  - change [byte_of_Z (c0 / 256); byte_of_Z c0] with (be_bytes 2 c0).
    by rewrite be_value_be_bytes by (simpl; lia).
  - match goal with
    | |- be_value ?l = seqn => change l with (be_bytes 8 seqn)
    end.
    by rewrite be_value_be_bytes by (simpl; lia).
  - by rewrite byteZ_byte_of_Z_small.
Qed.

(** The theorem at the sample attestation with two signatures. *)
Lemma roundtrip_below_sign_bit_witness :
  parseVAA (encode signedAttestation) = Returned signedAttestation.
Proof.
  apply (roundtrip_below_sign_bit signedAttestation).
  - vm_compute. reflexivity.
  - simpl. lia.
  - simpl. lia.
  - simpl. lia.
Defined.

(** The same by evaluation: 191 bytes, decoded to the record they were
    encoded from. *)
Example roundtrip_signed_attestation :
  length (encode signedAttestation) = 191%nat
  /\ parseVAA (encode signedAttestation) = Returned signedAttestation.
Proof. split; vm_compute; reflexivity. Qed.

End RoundTrip.

(** ** The event bus: [EventEmitter.emit] *)
Section Emit.
Import EventEmitter Scenarios.

Context {U A : Type}.
Variable h : handlers U A.
Variable event : string.
Variable args : A.

(** One listener under [try]/[catch]: it is called, and the step
    returns whether the listener does or not. *)
Lemma guarded_call_returns (l : listener) (w : world U A) :
  exists w',
    try_catch (call h l args)
      (fun error => console_write ("Error in event listener for " +:+ event)) w
    = (Returned tt, w')
    /\ invoked w' = invoked w ++ [(l, args)].
Proof.
  unfold try_catch, call.
  destruct (h l args (user w)) as [[[]|e] u]; simpl; eauto.
Qed.

(** The loop of [emit] calls every listener, in order, and returns. *)
Lemma for_of_guarded_calls (ls : list listener) (w : world U A) :
  exists w',
    for_of ls
      (fun l =>
         try_catch (call h l args)
           (fun error => console_write ("Error in event listener for " +:+ event)))
      w
    = (Returned tt, w')
    /\ invoked w' = invoked w ++ map (fun l => (l, args)) ls.
Proof.
  revert w. induction ls as [|l ls IH]; intros w.
  - exists w. simpl. by rewrite app_nil_r.
  - cbn [for_of map].
    destruct (guarded_call_returns l w) as (w1 & -> & Hw1).
    destruct (IH w1) as (w2 & -> & Hw2).
    exists w2. split; [done|]. rewrite Hw2, Hw1. by rewrite <- app_assoc.
Qed.

End Emit.


(** Three listeners, the second of which throws: all three are called,
    the two others have counted, and [emit] returns [true]. *)
Example emit_isolates_listeners_example :
  EventEmitter.emit Scenarios.countingHandlers Scenarios.threeListeners
    "refund_needed" "0x0rder" Scenarios.freshWorld
  = (Returned true,
     {| EventEmitter.user := 2%nat;
        EventEmitter.invoked :=
          [(0%nat, "0x0rder"); (1%nat, "0x0rder"); (2%nat, "0x0rder")];
        EventEmitter.console := ["Error in event listener for refund_needed"] |}).
Proof. vm_compute. reflexivity. Qed.

(** ** The auction tracker *)
Section Tracker.
Import FusionAuctionTracker Scenarios.

Lemma with_state_same (a : auction_entry) : with_state (state a) a = a.
Proof. by destruct a. Qed.

(** The [switch] touches neither the state nor the clock fields of the
    entry. *)
Lemma mapStatus_entry (s : AuctionStatus) (a : auction_entry) :
  state (mapStatus s a).2 = state a
  /\ startTime (mapStatus s a).2 = startTime a
  /\ timeoutMs (mapStatus s a).2 = timeoutMs a
  /\ pollInterval (mapStatus s a).2 = pollInterval a.
Proof.
  unfold mapStatus. repeat case_match; simpl; done.
Qed.


(** [emitAuctionEvent] stops at its call of [logger.info], before
    either [emit]. *)
Lemma emitAuctionEvent_throws (now : Z) (order : string) (s : AuctionState)
    (d : option EventData) (tr : tracker) :
  emitAuctionEvent now order s d tr = (Thrown (Logger.notAFunction "info"), tr).
Proof. reflexivity. Qed.

(** [trackOrder] stops at its first statement, and its [catch] at its
    own: the error thrown is the one of [logger.error]. *)
Lemma trackOrder_throws (now : Z) (order : string) (timeoutMinutes : Z)
    (tr : tracker) :
  trackOrder now order timeoutMinutes tr
  = (Thrown (Logger.notAFunction "error"), tr).
Proof. reflexivity. Qed.

(** What a status check does.  It returns when the order is not
    registered or the polled state is the state of the entry; it throws
    when the query failed or the state changed, the new state being
    stored by then. *)
Lemma checkAuctionStatus_cases (now : Z) (order : string)
    (response : outcome AuctionStatus) (tr : tracker) :
  checkAuctionStatus now order response tr
  = (match response, activeAuctions tr !! order with
     | Thrown _, _ => Thrown (Logger.notAFunction "error")
     | Returned _, None => Returned tt
     | Returned _, Some a =>
         if bool_decide (polledState response a = state a) then Returned tt
         else Thrown (Logger.notAFunction "error")
     end,
     afterCheck order response tr).
Proof.
  unfold checkAuctionStatus, afterCheck, try_catch, mbind, T_bind, modify, lift.
  cbn [activeAuctions asked].
  destruct response as [s|e]; cbn [polledState polledEntry].
  - destruct (activeAuctions tr !! order) as [a|] eqn:Ha; [|done].
    destruct (mapStatus s a) as [newState a'] eqn:Hmap.
    pose proof (mapStatus_entry s a) as (Hstate & _).
    rewrite Hmap in Hstate. cbn [fst snd] in *. rewrite Hstate.
    destruct (decide (newState = state a)) as [->|Hne].
    + rewrite bool_decide_eq_false_2 by (intros H; by apply H).
      rewrite bool_decide_eq_true_2 by done.
      rewrite <- Hstate. by rewrite with_state_same.
    + rewrite bool_decide_eq_true_2 by done.
      rewrite bool_decide_eq_false_2 by done.
      rewrite emitAuctionEvent_throws. cbn [set_auctions activeAuctions].
      by rewrite insert_insert_eq.
  - destruct (activeAuctions tr !! order) as [a|] eqn:Ha; [|done].
    rewrite with_state_same, insert_id by done.
    by destruct tr.
Qed.

(** What the rest of the callback does. *)
Lemma resume_cases (now : Z) (handle : nat) (order : string)
    (checked : outcome unit) (tr : tracker) :
  resume now handle order checked tr
  = match checked with
    | Thrown _ => (Thrown (Logger.notAFunction "error"), tr)
    | Returned _ =>
        match activeAuctions tr !! order with
        | None => (Returned tt, clearInterval handle tr)
        | Some a =>
            if terminal (state a) then
              (Thrown (Logger.notAFunction "error"),
               set_auctions (delete order (activeAuctions tr))
                 (clearInterval handle tr))
            else if timeoutMs a <? now - startTime a then
              (Thrown (Logger.notAFunction "error"), tr)
            else (Returned tt, tr)
        end
    end.
Proof.
  unfold resume, try_catch, mbind, T_bind, modify, lift.
  destruct checked as [[]|e]; [|done].
  destruct (activeAuctions tr !! order) as [a|]; [|done].
  destruct (terminal (state a)); [done|].
  by destruct (timeoutMs a <? now - startTime a).
Qed.

(** [handleTimeout] sets the state and stops at the event. *)
Lemma handleTimeout_cases (now : Z) (order : string) (tr : tracker) :
  handleTimeout now order tr
  = match activeAuctions tr !! order with
    | None => (Returned tt, tr)
    | Some a =>
        (Thrown (Logger.notAFunction "info"),
         set_auctions (<[order := with_state EXPIRED a]> (activeAuctions tr)) tr)
    end.
Proof.
  unfold handleTimeout. by destruct (activeAuctions tr !! order).
Qed.



(** Neither step of the callback emits. *)
Lemma afterCheck_emitted (order : string) (response : outcome AuctionStatus)
    (tr : tracker) :
  emitted (afterCheck order response tr) = emitted tr.
Proof. unfold afterCheck. by destruct (activeAuctions tr !! order). Qed.

Lemma resume_emitted (now : Z) (handle : nat) (order : string)
    (checked : outcome unit) (tr : tracker) :
  emitted (resume now handle order checked tr).2 = emitted tr.
Proof.
  rewrite resume_cases. by repeat case_match.
Qed.

(** The state of an order after the status check. *)
Lemma afterCheck_state (order other : string)
    (response : outcome AuctionStatus) (tr : tracker) :
  getAuctionState (afterCheck order response tr) other
  = if decide (other = order) then
      polledState response <$> activeAuctions tr !! order
    else getAuctionState tr other.
Proof.
  unfold afterCheck, getAuctionState.
  destruct (activeAuctions tr !! order) as [a|] eqn:Ha;
    cbn [asked set_auctions activeAuctions].
  - destruct (decide (other = order)) as [->|Hne].
    + by rewrite lookup_insert_eq.
    + by rewrite lookup_insert_ne.
  - destruct (decide (other = order)) as [->|Hne]; [by rewrite Ha|done].
Qed.


(** C7.  The tracker publishes no state change, and there is no
    tracker to begin with.
    - The constructor throws: its last statement is a call of
      [logger.info], and [logger.info] is not a function.
    - [trackOrder] throws at its first statement and leaves the tracker
      as it was: no order is registered, no event is published.
    - [emitAuctionEvent] throws before either [emit].
    - A status check emits nothing, whatever the response; where the
      response maps a registered order to another state, the new state
      is stored and the check throws, at the event. *)
Theorem status_changes_not_published :
  is_thrown_TypeError constructor = true
  /\ (forall now order timeoutMinutes tr,
        let r := trackOrder now order timeoutMinutes tr in
        is_thrown_TypeError r.1 = true /\ r.2 = tr)
  /\ (forall now order s d tr,
        let r := emitAuctionEvent now order s d tr in
        is_thrown_TypeError r.1 = true /\ r.2 = tr)
  /\ (forall now order response tr,
        emitted (checkAuctionStatus now order response tr).2 = emitted tr)
  /\ (forall now order s a tr,
        activeAuctions tr !! order = Some a ->
        (mapStatus s a).1 ≠ state a ->
        let r := checkAuctionStatus now order (Returned s) tr in
        is_thrown_TypeError r.1 = true
        /\ getAuctionState r.2 order = Some (mapStatus s a).1).
Proof.
  split; [reflexivity|]. split; [done|]. split; [done|]. split.
  - intros now order response tr.
    rewrite checkAuctionStatus_cases. apply afterCheck_emitted.
  - intros now order s a tr Ha Hne r. subst r.
    rewrite checkAuctionStatus_cases, Ha. cbn [fst snd polledState].
    rewrite bool_decide_eq_false_2 by done. split; [reflexivity|].
    rewrite afterCheck_state, decide_True, Ha by done. reflexivity.
Qed.

(** The first poll of an order that is registered in state [PENDING]:
    the exchange reports [pending], the state becomes [ANNOUNCED], the
    check throws, and nothing is published. *)
Example pending_poll_not_published :
  let r := checkAuctionStatus 5000 "0x0rder" (Returned (statusOf "pending"))
             (tracking PENDING) in
  r.1 = Thrown (Logger.notAFunction "error")
  /\ getAuctionState r.2 "0x0rder" = Some ANNOUNCED
  /\ emitted r.2 = [].
Proof. vm_compute. done. Qed.

(** C8.  The timeout is not handled.
    - The constructor throws, so that no tracker polls anything.
    - Neither step of the timer's callback emits, nor does
      [handleTimeout]: no [refund_needed] is published, and no event of
      the state [EXPIRED].
    - When the callback finds the order past its timeout, in a state
      that is not terminal, it throws at its call of [logger.warn],
      before [handleTimeout] and before [clearInterval]: the tracker is
      as the status check left it, the state of the order is not
      forced, and the timer goes on polling. *)
Theorem timeout_not_handled :
  is_thrown_TypeError constructor = true
  /\ (forall now order response tr,
        emitted (checkAuctionStatus now order response tr).2 = emitted tr)
  /\ (forall now handle order checked tr,
        emitted (resume now handle order checked tr).2 = emitted tr)
  /\ (forall now order tr, emitted (handleTimeout now order tr).2 = emitted tr)
  /\ (forall now handle order checked tr a,
        activeAuctions tr !! order = Some a ->
        terminal (state a) = false ->
        timeoutMs a < now - startTime a ->
        let r := resume now handle order checked tr in
        is_thrown_TypeError r.1 = true /\ r.2 = tr).
Proof.
  split; [reflexivity|]. split; [|split; [|split]].
  - intros now order response tr.
    rewrite checkAuctionStatus_cases. apply afterCheck_emitted.
  - intros. apply resume_emitted.
  - intros now order tr. rewrite handleTimeout_cases.
    by destruct (activeAuctions tr !! order).
  - intros now handle order checked tr a Ha Hterm Hlate r. subst r.
    rewrite resume_cases, Ha, Hterm.
    rewrite (proj2 (Z.ltb_lt _ _) Hlate).
    by destruct checked.
Qed.

(** The tick of the timer one millisecond past the 30 minutes of an
    order in auction, the exchange reporting it as still in auction:
    the tick throws, the order is in auction as before, nothing was
    published, and the timer is live. *)
Example timeout_tick_in_auction :
  let r := pollTick 1800001 0 (Returned (statusOf "in_auction"))
             (tracking IN_AUCTION) in
  r.1 = Thrown (Logger.notAFunction "error")
  /\ getAuctionState r.2 "0x0rder" = Some IN_AUCTION
  /\ emitted r.2 = []
  /\ intervals r.2 !! 0%nat = Some "0x0rder".
Proof. vm_compute. done. Qed.


(** The tick at which the exchange reports an executing order as
    completed: the tick throws, and the order is still in the registry,
    completed. *)
Example completed_poll_keeps_entry :
  let r := pollTick 60000 0 (Returned (statusOf "completed"))
             (tracking EXECUTING) in
  r.1 = Thrown (Logger.notAFunction "error")
  /\ getActiveAuctions r.2 !! "0x0rder" = Some COMPLETED
  /\ intervals r.2 !! 0%nat = Some "0x0rder".
Proof. vm_compute. done. Qed.

End Tracker.

(* ===================================================================== *)
(** * Part III: further properties of the three classes                   *)
(* ===================================================================== *)

(** ** Strings *)
Section StringFacts.

Lemma append_cons (c : ascii) (s t : string) :
  String c s +:+ t = String c (s +:+ t).
Proof. reflexivity. Qed.

Lemma append_nil_l (t : string) : EmptyString +:+ t = t.
Proof. reflexivity. Qed.

Lemma length_append (s t : string) :
  String.length (s +:+ t) = (String.length s + String.length t)%nat.
Proof.
  induction s as [|c s IH]; [done|].
  rewrite append_cons. simpl. by rewrite IH.
Qed.

Lemma pretty_N_char_no_dash (x : N) : pretty_N_char x ≠ "-"%char.
Proof. unfold pretty_N_char. by repeat case_match. Qed.

Lemma pretty_N_go_digits (x : N) (s : string) :
  dashless s -> dashless (pretty_N_go x s).
Proof.
  revert s. induction (N.lt_wf_0 x) as [x _ IH]; intros s Hs.
  assert (x = 0 \/ 0 < x)%N as [->|Hpos] by lia.
  - by rewrite pretty_N_go_0.
  - rewrite pretty_N_go_step by done. apply IH.
    + by apply N.div_lt.
    + split; [apply pretty_N_char_no_dash | done].
Qed.

(** The decimal writing of a number that is not negative has no minus
    sign in it. *)
Lemma pretty_nonneg_digits (z : Z) : 0 <= z -> dashless (pretty z).
Proof.
  intros Hz. destruct z as [|p|p]; [done| |lia].
  unfold pretty, pretty_Z, pretty, pretty_positive, pretty, pretty_N.
  case_decide; [done|]. by apply pretty_N_go_digits.
Qed.

(** Two strings cut at their first minus sign agree on both sides of
    it. *)
Lemma split_at_dash (d1 d2 r1 r2 : string) :
  dashless d1 -> dashless d2 ->
  d1 +:+ String "-" r1 = d2 +:+ String "-" r2 ->
  d1 = d2 /\ r1 = r2.
Proof.
  revert d2. induction d1 as [|c d1 IH]; intros [|c' d2] H1 H2 Heq.
  - rewrite !append_nil_l in Heq. by inversion Heq.
  - rewrite append_nil_l, append_cons in Heq. inversion Heq; subst.
    by destruct H2.
  - rewrite append_nil_l, append_cons in Heq. inversion Heq; subst.
    by destruct H1.
  - rewrite !append_cons in Heq. inversion Heq; subst.
    destruct H1 as [_ H1], H2 as [_ H2].
    match goal with
    | Htail : d1 +:+ _ = d2 +:+ _ |- _ =>
        destruct (IH d2 H1 H2 Htail) as [Hd Hr]
    end.
    by rewrite Hd, Hr.
Qed.

End StringFacts.

(** ** The chains the bridge serves *)
Section Chains.
Import WormholeBridge Scenarios.

(** The transfer keys of two locks agree only when the locks agree on
    the source chain and on the sequence. *)
Lemma transferKey_eq (c1 c2 s1 s2 : Z) :
  0 <= c1 -> 0 <= c2 ->
  transferKey c1 s1 = transferKey c2 s2 -> c1 = c2 /\ s1 = s2.
Proof.
  intros H1 H2 Heq. unfold transferKey in Heq.
  change ("-" +:+ pretty s1) with (String "-" (pretty s1)) in Heq.
  change ("-" +:+ pretty s2) with (String "-" (pretty s2)) in Heq.
  apply split_at_dash in Heq as [Hc Hs]; try by apply pretty_nonneg_digits.
  split; by apply (inj pretty).
Qed.

Lemma supported_cases (chainId : Z) :
  chainId ∈ getSupportedChains
  <-> chainId = 1 \/ chainId = 10 \/ chainId = 56 \/ chainId = 137
      \/ chainId = 8453 \/ chainId = 42161.
Proof.
  unfold getSupportedChains. rewrite !elem_of_cons, elem_of_nil. tauto.
Qed.

End Chains.

(** [isChainSupported] holds exactly of the chains [getSupportedChains]
    lists; these are the chains that have a token bridge, and the
    chains the constructor sets a provider up for. *)
Theorem supported_chains_agree (chainId : Z) :
  (WormholeBridge.isChainSupported chainId = true
   <-> chainId ∈ WormholeBridge.getSupportedChains)
  /\ (is_Some (WormholeBridge.TOKEN_BRIDGE_CONTRACTS chainId)
      <-> chainId ∈ WormholeBridge.getSupportedChains)
  /\ (chainId ∈ WormholeBridge.providers WormholeBridge.new_service
      <-> chainId ∈ WormholeBridge.getSupportedChains).
Proof.
  rewrite supported_cases.
  split; [|split].
  - unfold WormholeBridge.isChainSupported, WormholeBridge.WORMHOLE_CONTRACTS.
    rewrite bool_decide_eq_true.
    repeat case_decide; split; intros Hx; try (by eauto); try lia;
      try (by destruct Hx as [? ?]).
  - unfold WormholeBridge.TOKEN_BRIDGE_CONTRACTS.
    repeat case_decide; split; intros Hx; try (by eauto); try lia;
      try (by destruct Hx as [? ?]).
  - unfold WormholeBridge.new_service. cbn [WormholeBridge.providers].
    rewrite !elem_of_union, !elem_of_singleton. tauto.
Qed.

(** Locks that differ in their source chain or in their sequence never
    share a key of the registry. *)
Theorem transferKey_injective (c1 c2 s1 s2 : Z) :
  0 <= c1 -> 0 <= c2 ->
  WormholeBridge.transferKey c1 s1 = WormholeBridge.transferKey c2 s2 ->
  c1 = c2 /\ s1 = s2.
Proof. apply transferKey_eq. Qed.

(** The theorem at the keys of chain 1, sequence 23 and of chain 12,
    sequence 3. *)
Lemma transferKey_injective_witness :
  bool_decide (WormholeBridge.transferKey 1 23 = WormholeBridge.transferKey 12 3)
  = false.
Proof.
  apply bool_decide_eq_false. intros H.
  apply transferKey_injective in H; lia.
Defined.

(** ** The token bridges, and the log of the lock *)
Section Locks.
Import WormholeBridge Scenarios.

Lemma supported_nonneg (chainId : Z) :
  is_Some (TOKEN_BRIDGE_CONTRACTS chainId) -> 0 <= chainId.
Proof.
  unfold TOKEN_BRIDGE_CONTRACTS.
  repeat case_decide; intros Hx; try lia. by destruct Hx.
Qed.

(** The emitter address of every chain that has a token bridge: 64
    characters. *)
Lemma formatEmitterAddress_supported (chainId : Z) :
  is_Some (TOKEN_BRIDGE_CONTRACTS chainId) ->
  exists emitter,
    formatEmitterAddress (TOKEN_BRIDGE_CONTRACTS chainId) = Returned emitter
    /\ String.length emitter = 64%nat.
Proof.
  unfold TOKEN_BRIDGE_CONTRACTS.
  repeat case_decide; intros Hx;
    try (eexists; split; [vm_compute; reflexivity | reflexivity]).
  by destruct Hx.
Qed.

Lemma find_first_match {X} (f : X -> bool) (before after : list X) (x : X) :
  (forall y, y ∈ before -> f y = false) -> f x = true ->
  List.find f (before ++ x :: after) = Some x.
Proof.
  induction before as [|y before IH]; intros Hno Hx; simpl.
  - by rewrite Hx.
  - rewrite (Hno y) by set_solver. apply IH; [|done].
    intros z Hz. apply Hno. set_solver.
Qed.

End Locks.

(** [extractSequence] decodes the first log entry whose first topic is
    the signature of the published message; entries before it with
    another first topic, or with no topic, and every entry after it are
    ignored. *)
Theorem extractSequence_first_match (E : WormholeBridge.Ethers)
    (before after : list WormholeBridge.Log) (log : WormholeBridge.Log) :
  (forall l, l ∈ before ->
     WormholeBridge.topics l !! 0%nat
     ≠ Some (WormholeBridge.id E
               "LogMessagePublished(address,uint64,uint32,bytes,uint8)")) ->
  WormholeBridge.topics log !! 0%nat
  = Some (WormholeBridge.id E
            "LogMessagePublished(address,uint64,uint32,bytes,uint8)") ->
  WormholeBridge.extractSequence E
    {| WormholeBridge.logs := before ++ log :: after |}
  = WormholeBridge.decodeSequence E (WormholeBridge.data log).
Proof.
  intros Hbefore Hlog. unfold WormholeBridge.extractSequence.
  cbn [WormholeBridge.logs].
  rewrite (find_first_match _ before after log); [done| |].
  - intros l Hl. apply bool_decide_eq_false. by apply Hbefore.
  - by apply bool_decide_eq_true.
Qed.

(** The theorem at a receipt whose second and third entries are
    published messages: the second is decoded. *)
Lemma extractSequence_first_match_witness :
  WormholeBridge.extractSequence Scenarios.sampleEthers Scenarios.busyReceipt
  = WormholeBridge.decodeSequence Scenarios.sampleEthers "0x07".
Proof.
  apply (extractSequence_first_match Scenarios.sampleEthers
           [Scenarios.otherLog] [Scenarios.laterLog] Scenarios.publishedLog).
  - intros l Hl. apply list_elem_of_singleton in Hl as ->.
    vm_compute. discriminate.
  - reflexivity.
Defined.

(** ** [formatEmitterAddress] *)
Section EmitterAddress.
Import WormholeBridge.

Lemma length_zeros (n : nat) : String.length (zeros n) = n.
Proof. induction n as [|n IH]; [done|]. simpl. by rewrite IH. Qed.

Lemma length_toLowerCase (s : string) :
  String.length (toLowerCase s) = String.length s.
Proof. induction s as [|c s IH]; [done|]. simpl. by rewrite IH. Qed.

End EmitterAddress.

(** [formatEmitterAddress] on an address written [0x] and then digits:
    the prefix is dropped, the digits are put in lower case and padded
    on the left with zeros to 64 characters; digits beyond 64 are kept,
    not cut.  Called without an address it throws a TypeError. *)
Theorem formatEmitterAddress_pads (digits : string) :
  WormholeBridge.formatEmitterAddress (Some ("0x" +:+ digits))
  = Returned (WormholeBridge.zeros (64 - String.length digits)
              +:+ WormholeBridge.toLowerCase digits)
  /\ WormholeBridge.formatEmitterAddress (Some ("0X" +:+ digits))
     = WormholeBridge.formatEmitterAddress (Some ("0x" +:+ digits))
  /\ String.length (WormholeBridge.zeros (64 - String.length digits)
                    +:+ WormholeBridge.toLowerCase digits)
     = Nat.max 64 (String.length digits)
  /\ is_thrown_TypeError (WormholeBridge.formatEmitterAddress None) = true.
Proof.
  split; [|split; [|split]].
  - unfold WormholeBridge.formatEmitterAddress, WormholeBridge.padStart0.
    change (WormholeBridge.replace0x (WormholeBridge.toLowerCase ("0x" +:+ digits)))
      with (WormholeBridge.toLowerCase digits).
    by rewrite length_toLowerCase.
  - reflexivity.
  - rewrite length_append, length_zeros, length_toLowerCase. lia.
  - reflexivity.
Qed.

(** ** The status of a transfer, and the whole bridge *)


(** [bridgeTokens] fails with its lock, at the first statement of
    [transferTokens]: a TypeError, no contract call, no request to the
    guardians, and the service as it was. *)
Theorem bridgeTokens_fails_at_once (E : WormholeBridge.Ethers)
    (C : WormholeBridge.Chain) (net : WormholeBridge.Network)
    (st : WormholeBridge.service) (sourceChainId targetChainId : Z)
    (tokenAddress amount recipientAddress : string) :
  let r := WormholeBridge.bridgeTokens E C net st sourceChainId targetChainId
             tokenAddress amount recipientAddress in
  is_thrown_TypeError r.1.1 = true /\ r.1.2 = st /\ r.2 = []
  /\ exists e,
       r.1.1 = Thrown e
       /\ WormholeBridge.transferTokens E C st sourceChainId targetChainId
            tokenAddress amount recipientAddress
          = (Thrown e, st).
Proof.
  rewrite bridgeTokens_throws, transferTokens_throws. cbn.
  split_and!; try done. by eexists.
Qed.

(** ** The signatures of an attestation, by position *)
Section Signatures.
Import WormholeBridge Codec.

Lemma parseSignatures_positional (bs : Uint8Array) (n index : nat)
    (acc : list SignatureSet) :
  (parseSignatures bs n index acc).1
  = acc ++ map (fun i : nat =>
                  {| guardianIndex := get bs (index + 66 * i);
                     signature := field bs (index + 66 * i + 1) 65 |})
             (seq 0 n).
Proof.
  revert index acc. induction n as [|n IH]; intros index acc.
  - simpl. by rewrite app_nil_r.
  - cbn [parseSignatures]. rewrite IH. cbn [seq map].
    rewrite <- app_assoc. cbn [app]. f_equal.
    rewrite Nat.mul_0_r, Nat.add_0_r. f_equal.
    rewrite <- seq_shift, map_map. apply map_ext. intros i.
    unfold field. f_equal; f_equal; lia.
Qed.

Lemma parseVAA_signatures_raw (bs : Uint8Array) (v : VAA) :
  parseVAA bs = Returned v ->
  signatures v = (parseSignatures bs (sigCount bs) 6 []).1.
Proof.
  unfold parseVAA, sigCount. intros H.
  change (0 + 1 + 4)%nat with 5%nat in H.
  change (5 + 1)%nat with 6%nat in H.
  destruct (parseSignatures bs (iterations (get bs 5)) 6 []) as [sigs index].
  destruct (BigInt_0x _) as [sequence|e]; [|discriminate].
  by inversion H.
Qed.

Lemma length_field (bs : Uint8Array) (off len : nat) :
  length (field bs off len) = Nat.min len (length bs - off).
Proof.
  unfold field, slice. rewrite length_take, length_drop. lia.
Qed.

Lemma lookup_field (bs : Uint8Array) (off len q : nat) :
  (q < len)%nat -> field bs off len !! q = bs !! (off + q)%nat.
Proof.
  intros Hq. unfold field, slice.
  rewrite lookup_take_lt by lia. by rewrite lookup_drop.
Qed.

(** [parseVAA] returns only on a buffer that reaches into the sequence
    field. *)
Lemma parseVAA_returned_reaches (bs : Uint8Array) (v : VAA) :
  parseVAA bs = Returned v -> (sequenceOffset bs < length bs)%nat.
Proof.
  unfold parseVAA, sequenceOffset. intros H.
  change (iterations (get bs (0 + 1 + 4))) with (sigCount bs) in H.
  pose proof (parseSignatures_index bs (sigCount bs) (0 + 1 + 4 + 1) []) as Hidx.
  destruct (parseSignatures bs (sigCount bs) (0 + 1 + 4 + 1) []) as [sigs index].
  simpl in Hidx. subst index.
  rewrite BigInt_0x_toHex in H.
  destruct (decide (sequenceOffset bs < length bs)%nat) as [Hlt|Hge];
    [unfold sequenceOffset in Hlt; lia|].
  rewrite slice_nil in H by (unfold sequenceOffset in Hge; lia).
  discriminate.
Qed.

End Signatures.

(** A record that [parseVAA] returns comes from a buffer that reaches
    into the sequence field, so that its signatures are complete: they
    are as many as the sixth byte says, and the one at position [i] is
    read at offset [6 + 66 i], its guardian index the byte there, its
    signature the 65 bytes that follow. *)
Theorem parseVAA_signatures (vaaBytes : Uint8Array) (v : WormholeBridge.VAA) :
  WormholeBridge.parseVAA vaaBytes = Returned v ->
  (Codec.sequenceOffset vaaBytes < length vaaBytes)%nat
  /\ WormholeBridge.signatures v
     = map (fun i : nat =>
              {| WormholeBridge.guardianIndex := get vaaBytes (6 + 66 * i);
                 WormholeBridge.signature :=
                   Codec.field vaaBytes (6 + 66 * i + 1) 65 |})
         (seq 0 (Codec.sigCount vaaBytes))
  /\ forall (i : nat) (s : WormholeBridge.SignatureSet),
       WormholeBridge.signatures v !! i = Some s ->
       length (WormholeBridge.signature s) = 65%nat
       /\ exists b, vaaBytes !! (6 + 66 * i)%nat = Some b
                    /\ WormholeBridge.guardianIndex s = num (byteZ b).
Proof.
  intros H.
  pose proof (parseVAA_returned_reaches _ _ H) as Hreach.
  assert (Hsigs : WormholeBridge.signatures v
                  = map (fun i : nat =>
                           {| WormholeBridge.guardianIndex := get vaaBytes (6 + 66 * i);
                              WormholeBridge.signature :=
                                Codec.field vaaBytes (6 + 66 * i + 1) 65 |})
                      (seq 0 (Codec.sigCount vaaBytes))).
  { rewrite (parseVAA_signatures_raw _ _ H).
    by rewrite parseSignatures_positional. }
  split; [exact Hreach|]. split; [exact Hsigs|].
  intros i s Hs. rewrite Hsigs in Hs.
  apply list_lookup_fmap_Some in Hs as (j & -> & Hj).
  apply lookup_seq in Hj as [-> Hi]. cbn [Nat.add].
  cbn [WormholeBridge.signature WormholeBridge.guardianIndex].
  unfold Codec.sequenceOffset in Hreach.
  split; [rewrite length_field; lia|].
  destruct (lookup_lt_is_Some_2 vaaBytes (6 + 66 * i)%nat) as [b Hb]; [lia|].
  exists b. split; [done|]. by apply get_lookup.
Qed.

(** The theorem at a buffer with the signatures of guardians 0 and
    3. *)
Lemma parseVAA_signatures_witness :
  exists v,
    WormholeBridge.parseVAA Scenarios.twoSignatures = Returned v
    /\ map WormholeBridge.guardianIndex (WormholeBridge.signatures v)
       = [num 0; num 3].
Proof.
  destruct (WormholeBridge.parseVAA Scenarios.twoSignatures) as [v|e] eqn:Hv;
    [|vm_compute in Hv; discriminate].
  exists v. split; [reflexivity|].
  destruct (parseVAA_signatures Scenarios.twoSignatures v Hv) as (_ & -> & _).
  vm_compute. reflexivity.
Defined.

(** ** [parseVAA] loses nothing of a complete buffer *)
Section Lossless.
Import WormholeBridge Codec.

Lemma byteZ_inj (b1 b2 : Byte.byte) : byteZ b1 = byteZ b2 -> b1 = b2.
Proof.
  unfold byteZ. intros H. apply N2Z.inj in H.
  pose proof (Byte.of_to_N b1) as H1. pose proof (Byte.of_to_N b2) as H2.
  rewrite H in H1. congruence.
Qed.

Lemma get_inj (bs1 bs2 : Uint8Array) (i : nat) :
  get bs1 i = get bs2 i -> bs1 !! i = bs2 !! i.
Proof.
  unfold get. destruct (bs1 !! i), (bs2 !! i); intros H; try done.
  inversion H as [Hb]. by rewrite (byteZ_inj _ _ Hb).
Qed.

Lemma be_value_bound (f : Uint8Array) :
  0 <= be_value f < 256 ^ Z.of_nat (length f).
Proof.
  induction f as [|x f IH] using rev_ind; [done|].
  rewrite be_value_app, length_app, Nat2Z.inj_add, Z.pow_add_r by lia.
  pose proof (byteZ_range x). cbn [length]. change (256 ^ Z.of_nat 1) with 256.
  nia.
Qed.

Lemma be_value_inj (f1 f2 : Uint8Array) :
  length f1 = length f2 -> be_value f1 = be_value f2 -> f1 = f2.
Proof.
  revert f2. induction f1 as [|x f1 IH] using rev_ind; intros f2 Hlen Hval.
  - by destruct f2.
  - destruct f2 as [|y f2 _] using rev_ind.
    { rewrite length_app in Hlen. simpl in Hlen. lia. }
    rewrite !length_app in Hlen. rewrite !be_value_app in Hval.
    pose proof (byteZ_range x). pose proof (byteZ_range y).
    assert (be_value f1 = be_value f2 /\ byteZ x = byteZ y) as [Hf Hb] by lia.
    f_equal; [apply IH; [simpl in Hlen; lia | done]|].
    f_equal. by apply byteZ_inj.
Qed.

Lemma ToInt32_inj (a b : Z) :
  0 <= a < 2 ^ 32 -> 0 <= b < 2 ^ 32 -> ToInt32 a = ToInt32 b -> a = b.
Proof.
  intros Ha Hb.
  destruct (decide (a < 2 ^ 31)), (decide (b < 2 ^ 31));
    rewrite ?(ToInt32_small a), ?(ToInt32_small b),
      ?(ToInt32_high a), ?(ToInt32_high b) by lia; lia.
Qed.

Lemma length_toHex (f : Uint8Array) :
  String.length (toHex f) = (2 * length f)%nat.
Proof.
  induction f as [|b f IH]; [done|].
  cbn [toHex length]. unfold hex_of_byte.
  rewrite !append_cons, append_nil_l. cbn [String.length]. rewrite IH. lia.
Qed.

Lemma hexlify_inj (f1 f2 : Uint8Array) : hexlify f1 = hexlify f2 -> f1 = f2.
Proof.
  unfold hexlify. intros H.
  assert (Hhex : toHex f1 = toHex f2).
  { change ("0x" +:+ toHex f1) with (String "0" (String "x" (toHex f1))) in H.
    change ("0x" +:+ toHex f2) with (String "0" (String "x" (toHex f2))) in H.
    by inversion H. }
  apply be_value_inj.
  - pose proof (length_toHex f1). pose proof (length_toHex f2).
    rewrite Hhex in *. lia.
  - pose proof (parse_hex_toHex f1 0) as H1.
    pose proof (parse_hex_toHex f2 0) as H2.
    rewrite Hhex, H2 in H1. unfold be_value. congruence.
Qed.

Lemma field_eq_lookup (bs1 bs2 : Uint8Array) (off len p : nat) :
  field bs1 off len = field bs2 off len -> (off <= p < off + len)%nat ->
  bs1 !! p = bs2 !! p.
Proof.
  intros Hf Hp.
  replace p with (off + (p - off))%nat by lia.
  rewrite <- !(lookup_field _ off len) by lia. by rewrite Hf.
Qed.

(** A field of four bytes behind a signed 32-bit read. *)
Lemma int32_field_inj (bs1 bs2 : Uint8Array) (off : nat) :
  (off + 4 <= length bs1)%nat -> (off + 4 <= length bs2)%nat ->
  num (ToInt32 (be_value (field bs1 off 4)))
  = num (ToInt32 (be_value (field bs2 off 4))) ->
  field bs1 off 4 = field bs2 off 4.
Proof.
  intros H1 H2 H. inversion H as [Hv].
  assert (Hl1 : length (field bs1 off 4) = 4%nat) by (rewrite length_field; lia).
  assert (Hl2 : length (field bs2 off 4) = 4%nat) by (rewrite length_field; lia).
  apply be_value_inj; [congruence|].
  pose proof (be_value_bound (field bs1 off 4)) as B1.
  pose proof (be_value_bound (field bs2 off 4)) as B2.
  rewrite Hl1 in B1. rewrite Hl2 in B2.
  apply ToInt32_inj; [exact B1 | exact B2 | done].
Qed.

Lemma uint_field_inj (bs1 bs2 : Uint8Array) (off len : nat) :
  (off + len <= length bs1)%nat -> (off + len <= length bs2)%nat ->
  be_value (field bs1 off len) = be_value (field bs2 off len) ->
  field bs1 off len = field bs2 off len.
Proof.
  intros H1 H2 H. apply be_value_inj; [|done].
  rewrite !length_field. lia.
Qed.

(** Two complete buffers that [parseVAA] reads as the same record are
    the same buffer. *)
Lemma complete_buffers_equal (bs1 bs2 : Uint8Array) (v : VAA) :
  (impliedLength bs1 <= length bs1)%nat ->
  (impliedLength bs2 <= length bs2)%nat ->
  parseVAA bs1 = Returned v -> parseVAA bs2 = Returned v -> bs1 = bs2.
Proof.
  intros Hlong1 Hlong2 Hp1 Hp2.
  destruct (parseVAA_long_buffer bs1 Hlong1)
    as (v1 & Hv1 & A1 & A2 & A3 & A4 & A5 & A6 & A7 & A8 & A9 & A10 & A11).
  rewrite Hp1 in Hv1. inversion Hv1; subst v1. clear Hv1.
  destruct (parseVAA_long_buffer bs2 Hlong2)
    as (v2 & Hv2 & B1 & B2 & B3 & B4 & B5 & B6 & B7 & B8 & B9 & B10 & B11).
  rewrite Hp2 in Hv2. inversion Hv2; subst v2. clear Hv2.
  assert (Hn : sigCount bs2 = sigCount bs1) by congruence.
  unfold impliedLength in Hlong1, Hlong2. unfold bodyOffset in *.
  rewrite Hn in *. set (n := sigCount bs1) in *.
  rewrite A11, !parseSignatures_positional in B11. cbn [app] in B11.
  apply list_eq. intros p.
  destruct (decide (p = 0%nat)) as [->|Hp0]; [apply get_inj; congruence|].
  destruct (decide (p < 5)%nat) as [Hp5|Hp5].
  { apply (field_eq_lookup _ _ 1 4); [|lia].
    apply int32_field_inj; [lia | lia | congruence]. }
  destruct (decide (p = 5%nat)) as [->|Hpc].
  { destruct (lookup_lt_is_Some_2 bs1 5) as [b1 Hb1]; [lia|].
    destruct (lookup_lt_is_Some_2 bs2 5) as [b2 Hb2]; [lia|].
    rewrite Hb1, Hb2. f_equal. apply byteZ_inj.
    assert (Hc : sigCount bs2 = n) by done.
    unfold n, sigCount in Hc.
    rewrite (get_lookup _ _ _ Hb1), (get_lookup _ _ _ Hb2) in Hc.
    cbn [iterations] in Hc.
    pose proof (byteZ_range b1). pose proof (byteZ_range b2). lia. }
  destruct (decide (p < 6 + 66 * n)%nat) as [Hsig|Hsig].
  { pose proof (Nat.div_mod (p - 6) 66 ltac:(lia)) as Hdm.
    pose proof (Nat.mod_upper_bound (p - 6) 66 ltac:(lia)) as Hr.
    set (i := ((p - 6) / 66)%nat) in *. set (r := ((p - 6) mod 66)%nat) in *.
    assert (Hi : (i < n)%nat) by nia.
    apply (f_equal (fun l => l !! i)) in B11.
    rewrite !list_lookup_fmap, lookup_seq_lt in B11 by done.
    cbn in B11. inversion B11 as [[Hg Hs]].
    destruct (decide (r = 0%nat)) as [Hr0|Hr0].
    - replace p with (6 + 66 * i)%nat by lia. by apply get_inj.
    - apply (field_eq_lookup _ _ (6 + 66 * i + 1) 65); [done|lia]. }
  destruct (decide (p < 6 + 66 * n + 4)%nat).
  { apply (field_eq_lookup _ _ (1 + 4 + 1 + 66 * n) 4); [|lia].
    apply int32_field_inj; [lia | lia | congruence]. }
  destruct (decide (p < 6 + 66 * n + 8)%nat).
  { apply (field_eq_lookup _ _ (1 + 4 + 1 + 66 * n + 4) 4); [|lia].
    apply int32_field_inj; [lia | lia | congruence]. }
  destruct (decide (p < 6 + 66 * n + 10)%nat).
  { apply (field_eq_lookup _ _ (1 + 4 + 1 + 66 * n + 8) 2); [|lia].
    apply uint_field_inj; [lia | lia |]. rewrite A6 in B6. by inversion B6. }
  destruct (decide (p < 6 + 66 * n + 42)%nat).
  { apply (field_eq_lookup _ _ (1 + 4 + 1 + 66 * n + 10) 32); [|lia].
    apply hexlify_inj. congruence. }
  destruct (decide (p < 6 + 66 * n + 50)%nat).
  { apply (field_eq_lookup _ _ (1 + 4 + 1 + 66 * n + 42) 8); [|lia].
    apply uint_field_inj; [lia | lia | congruence]. }
  destruct (decide (p = 6 + 66 * n + 50)%nat) as [->|Hcl].
  { apply get_inj.
    replace (6 + 66 * n + 50)%nat with (1 + 4 + 1 + 66 * n + 50)%nat by lia.
    congruence. }
  rewrite A10 in B10. unfold slice_from in B10.
  apply (f_equal (fun l => l !! (p - (1 + 4 + 1 + 66 * n + 51))%nat)) in B10.
  rewrite !lookup_drop in B10.
  by replace (1 + 4 + 1 + 66 * n + 51 + (p - (1 + 4 + 1 + 66 * n + 51)))%nat
    with p in B10 by lia.
Qed.

End Lossless.

(** [parseVAA] is injective on complete buffers: two buffers, each at
    least as long as its signature count implies, that are read as the
    same record are the same buffer, byte for byte; the sign of the
    32-bit fields loses nothing. *)
Theorem parseVAA_injective (bs1 bs2 : Uint8Array) :
  (Codec.impliedLength bs1 <= length bs1)%nat ->
  (Codec.impliedLength bs2 <= length bs2)%nat ->
  WormholeBridge.parseVAA bs1 = WormholeBridge.parseVAA bs2 ->
  bs1 = bs2.
Proof.
  intros Hlong1 Hlong2 Heq.
  destruct (parseVAA_long_buffer bs1 Hlong1) as (v & Hv & _).
  apply (complete_buffers_equal bs1 bs2 v); [done | done | done |].
  by rewrite <- Heq.
Qed.

(** The theorem at two complete buffers that differ in the sign bit of
    the guardian-set index: they are read differently. *)
Lemma parseVAA_injective_witness :
  WormholeBridge.parseVAA (Codec.zeros_after_header Byte.x00 51)
  ≠ WormholeBridge.parseVAA (Codec.zeros_after_header Byte.x80 51).
Proof.
  intros Heq.
  apply (parseVAA_injective (Codec.zeros_after_header Byte.x00 51)
           (Codec.zeros_after_header Byte.x80 51)) in Heq.
  - discriminate Heq.
  - vm_compute. lia.
  - vm_compute. lia.
Defined.

(** On truncated buffers [parseVAA] is not injective: the buffers of 49
    and of 50 bytes, all zero but for the version, are read as the same
    record. *)
Example parseVAA_truncated_alike :
  Codec.zeros_after_header Byte.x00 43 ≠ Codec.zeros_after_header Byte.x00 44
  /\ WormholeBridge.parseVAA (Codec.zeros_after_header Byte.x00 43)
     = WormholeBridge.parseVAA (Codec.zeros_after_header Byte.x00 44)
  /\ is_Some (match WormholeBridge.parseVAA (Codec.zeros_after_header Byte.x00 43)
              with Returned v => Some v | Thrown _ => None end).
Proof.
  split; [discriminate|]. split; [vm_compute; reflexivity|].
  vm_compute. eauto.
Qed.

(** ** Subscribing and unsubscribing *)
Section Subscriptions.
Import EventEmitter.

Lemma elem_of_set_add (l x : listener) (ls : list listener) :
  x ∈ set_add l ls <-> x = l \/ x ∈ ls.
Proof.
  unfold set_add. case_bool_decide.
  - split; [auto|]. by intros [->|].
  - rewrite elem_of_app, list_elem_of_singleton. tauto.
Qed.

Lemma NoDup_set_add (l : listener) (ls : list listener) :
  NoDup ls -> NoDup (set_add l ls).
Proof.
  intros Hnd. unfold set_add. case_bool_decide; [done|].
  apply NoDup_app. split; [done|]. split; [|apply NoDup_singleton].
  intros x Hx Hl. apply list_elem_of_singleton in Hl as ->. done.
Qed.

Lemma set_add_nonempty (l : listener) (ls : list listener) : set_add l ls ≠ [].
Proof.
  unfold set_add. case_bool_decide as Hin.
  - intros ->. by apply elem_of_nil in Hin.
  - by destruct ls.
Qed.

Lemma set_add_again (l : listener) (ls : list listener) :
  set_add l (set_add l ls) = set_add l ls.
Proof.
  unfold set_add at 1. rewrite bool_decide_eq_true_2; [done|].
  apply elem_of_set_add. by left.
Qed.

Lemma elem_of_set_delete (l x : listener) (ls : list listener) :
  x ∈ set_delete l ls <-> x ≠ l /\ x ∈ ls.
Proof.
  unfold set_delete. rewrite list_elem_of_In, List.filter_In.
  rewrite <- list_elem_of_In, negb_true_iff, bool_decide_eq_false. tauto.
Qed.

Lemma NoDup_set_delete (l : listener) (ls : list listener) :
  NoDup ls -> NoDup (set_delete l ls).
Proof.
  rewrite !NoDup_ListNoDup. unfold set_delete. apply List.NoDup_filter.
Qed.

Lemma set_delete_sublist (l : listener) (ls : list listener) :
  set_delete l ls `sublist_of` ls.
Proof.
  unfold set_delete. induction ls as [|x ls IH]; [done|]. simpl.
  destruct (negb _); by constructor.
Qed.

Lemma set_delete_absent (l : listener) (ls : list listener) :
  l ∉ ls -> set_delete l ls = ls.
Proof.
  intros Hl. unfold set_delete. induction ls as [|x ls IH]; [done|].
  apply not_elem_of_cons in Hl as [Hx Hls]. simpl.
  rewrite bool_decide_eq_false_2 by done. simpl. by rewrite IH.
Qed.

Lemma set_delete_app (l : listener) (ls1 ls2 : list listener) :
  set_delete l (ls1 ++ ls2) = set_delete l ls1 ++ set_delete l ls2.
Proof. unfold set_delete. apply List.filter_app. Qed.

Lemma set_delete_added (l : listener) (ls : list listener) :
  l ∉ ls -> set_delete l (set_add l ls) = ls.
Proof.
  intros Hl. unfold set_add. rewrite bool_decide_eq_false_2 by done.
  rewrite set_delete_app, set_delete_absent by done.
  unfold set_delete. simpl. rewrite bool_decide_eq_true_2 by done. simpl.
  apply app_nil_r.
Qed.

(** What [on] returns. *)
Lemma on_returns {U A} (e : emitter) (event : string) (l : listener)
    (w : world U A) :
  on e event l w
  = (Returned {| events := <[event := set_add l (listeners e event)]> (events e);
                 maxListeners := maxListeners e |},
     {| user := user w; invoked := invoked w;
        console :=
          console w
          ++ (if (maxListeners e <? length (set_add l (listeners e event)))%nat
              then [maxListenersWarning
                      (length (set_add l (listeners e event))) event]
              else []) |}).
Proof.
  unfold on. fold (listeners e event).
  destruct (maxListeners e <? length (set_add l (listeners e event)))%nat;
    simpl; [done|].
  rewrite app_nil_r. by destruct w.
Qed.

Lemma listeners_insert (m : gmap string (list listener)) (n : nat)
    (event ev : string) (ls : list listener) :
  listeners {| events := <[event := ls]> m; maxListeners := n |} ev
  = if decide (ev = event) then ls
    else listeners {| events := m; maxListeners := n |} ev.
Proof.
  unfold listeners. cbn [events]. case_decide as Hev.
  - subst. by rewrite lookup_insert_eq.
  - by rewrite lookup_insert_ne.
Qed.

Lemma listeners_insert_eq (m : gmap string (list listener)) (n : nat)
    (event : string) (ls : list listener) :
  listeners {| events := <[event := ls]> m; maxListeners := n |} event = ls.
Proof. rewrite listeners_insert. by case_decide. Qed.

Lemma listeners_insert_ne (m : gmap string (list listener)) (n : nat)
    (event ev : string) (ls : list listener) :
  ev ≠ event ->
  listeners {| events := <[event := ls]> m; maxListeners := n |} ev
  = listeners {| events := m; maxListeners := n |} ev.
Proof. intros Hev. rewrite listeners_insert. by case_decide. Qed.

Lemma listeners_delete (m : gmap string (list listener)) (n : nat)
    (event ev : string) :
  listeners {| events := delete event m; maxListeners := n |} ev
  = if decide (ev = event) then []
    else listeners {| events := m; maxListeners := n |} ev.
Proof.
  unfold listeners. cbn [events]. case_decide as Hev.
  - subst. by rewrite lookup_delete_eq.
  - by rewrite lookup_delete_ne.
Qed.

(** The listeners after [off], for every event. *)
Lemma listeners_off (e : emitter) (event ev : string) (l : listener) :
  listeners (off e event l) ev
  = if decide (ev = event) then set_delete l (listeners e event)
    else listeners e ev.
Proof.
  unfold off. destruct (events e !! event) as [ls|] eqn:Hls.
  - case_bool_decide as Hempty.
    + rewrite listeners_delete. case_decide; [|by destruct e].
      unfold listeners. rewrite Hls. simpl.
      by destruct (set_delete l ls).
    + rewrite listeners_insert. case_decide; [|by destruct e].
      unfold listeners. by rewrite Hls.
  - case_decide; [|done]. subst. unfold listeners. by rewrite Hls.
Qed.

(** What [emit] comes to, whatever the listeners do. *)
Lemma emit_outcome {U A} (h : handlers U A) (e : emitter) (event : string)
    (args : A) (w : world U A) :
  (emit h e event args w).1 = Returned (bool_decide (listeners e event ≠ []))
  /\ invoked (emit h e event args w).2
     = invoked w ++ map (fun l => (l, args)) (listeners e event).
Proof.
  unfold emit, listeners.
  destruct (events e !! event) as [ls|]; simpl.
  - destruct ls as [|l ls].
    + simpl. by rewrite app_nil_r.
    + rewrite bool_decide_eq_false_2 by done.
      destruct (for_of_guarded_calls h event args (l :: ls) w) as (w' & -> & Hw').
      simpl. by rewrite Hw'.
  - by rewrite app_nil_r.
Qed.

Lemma tidy_insert (e : emitter) (event : string) (ls : list listener) (n : nat) :
  tidy e -> ls ≠ [] -> NoDup ls ->
  tidy {| events := <[event := ls]> (events e); maxListeners := n |}.
Proof.
  intros He Hne Hnd ev ls'. cbn [events].
  destruct (decide (ev = event)) as [->|Hev].
  - rewrite lookup_insert_eq. by intros [= <-].
  - rewrite lookup_insert_ne by done. apply He.
Qed.

Lemma tidy_delete (e : emitter) (event : string) (n : nat) :
  tidy e -> tidy {| events := delete event (events e); maxListeners := n |}.
Proof.
  intros He ev ls'. cbn [events].
  destruct (decide (ev = event)) as [->|Hev].
  - by rewrite lookup_delete_eq.
  - rewrite lookup_delete_ne by done. apply He.
Qed.

Lemma tidy_listeners (e : emitter) (event : string) :
  tidy e -> NoDup (listeners e event).
Proof.
  intros He. unfold listeners.
  destruct (events e !! event) as [ls|] eqn:Hls; [|apply NoDup_nil_2].
  by apply (He event).
Qed.

Lemma tidy_off (e : emitter) (event : string) (l : listener) :
  tidy e -> tidy (off e event l).
Proof.
  intros He. unfold off. destruct (events e !! event) as [ls|] eqn:Hls; [|done].
  case_bool_decide as Hempty.
  - by apply tidy_delete.
  - apply tidy_insert; [done| |].
    + intros Heq. by rewrite Heq in Hempty.
    + apply NoDup_set_delete. by apply (He event).
Qed.

Lemma reachable_tidy (e : emitter) : reachable e -> tidy e.
Proof.
  induction 1 as [|U A e e' event l w w' _ IH Hon|e event l _ IH
                  |e event _ IH|e n _ IH].
  - intros ev ls. unfold new_emitter. cbn [events]. by rewrite lookup_empty.
  - rewrite on_returns in Hon. inversion Hon; subst e'.
    apply tidy_insert; [done|apply set_add_nonempty|].
    apply NoDup_set_add. by apply tidy_listeners.
  - by apply tidy_off.
  - unfold removeAllListeners.
    destruct event as [name|]; [case_bool_decide|];
      try (intros ev ls; cbn [events]; by rewrite lookup_empty).
    by apply tidy_delete.
  - exact IH.
Qed.

(** On a tidy emitter, [off] of a function that is not subscribed
    changes nothing. *)
Lemma off_absent (e : emitter) (event : string) (l : listener) :
  tidy e -> l ∉ listeners e event -> off e event l = e.
Proof.
  intros He Hl. unfold off, listeners in *.
  destruct (events e !! event) as [ls|] eqn:Hls; [|done]. simpl in Hl.
  rewrite set_delete_absent by done.
  destruct (He event ls Hls) as [Hne _].
  rewrite bool_decide_eq_false_2 by (by destruct ls).
  rewrite insert_id by done. by destruct e.
Qed.

End Subscriptions.

Section SubscriptionProperties.
Import EventEmitter Scenarios.

(** [on] returns the emitter with the listener subscribed to the event:
    behind the listeners that were there, in their order, or where it
    stood when it was subscribed already.  The other events, the limit
    and what the listeners work on are untouched.  A warning is written
    whenever the event then has more listeners than the limit, also
    when the call added none.  Subscribing the same listener again
    changes nothing, and an [emit] of the event then returns [true]
    after calling the earlier listeners and this one, each once. *)
Theorem on_subscribes {U A : Type} (h : handlers U A) (e : emitter)
    (event : string) (l : listener) (args : A) (w : world U A) :
  exists e' w',
    on e event l w = (Returned e', w')
    /\ listeners e' event
       = listeners e event ++ (if decide (l ∈ listeners e event) then [] else [l])
    /\ (forall ev, ev ≠ event -> listeners e' ev = listeners e ev)
    /\ getMaxListeners e' = getMaxListeners e
    /\ user w' = user w /\ invoked w' = invoked w
    /\ console w'
       = console w
         ++ (if decide (getMaxListeners e < listenerCount e' event)%nat
             then [maxListenersWarning (listenerCount e' event) event]
             else [])
    /\ (on e' event l w').1 = Returned e'
    /\ (emit h e' event args w').1 = Returned true
    /\ invoked (emit h e' event args w').2
       = invoked w ++ map (fun l' => (l', args)) (listeners e event)
         ++ (if decide (l ∈ listeners e event) then [] else [(l, args)]).
Proof.
  eexists _, _. split; [apply on_returns|].
  set (e' := {| events := _; maxListeners := _ |}).
  assert (Hset : listeners e' event = set_add l (listeners e event))
    by apply listeners_insert_eq.
  assert (Hls : listeners e' event
                = listeners e event
                  ++ (if decide (l ∈ listeners e event) then [] else [l])).
  { rewrite Hset. unfold set_add. case_bool_decide; case_decide; try done.
    by rewrite app_nil_r. }
  split; [exact Hls|]. split.
  { intros ev Hev. unfold e'. rewrite listeners_insert_ne by done.
    by destruct e. }
  split; [done|]. split; [done|]. split; [done|]. split.
  { cbn [console]. f_equal. unfold listenerCount, getMaxListeners.
    rewrite Hset.
    destruct (maxListeners e <? length (set_add l (listeners e event)))%nat
      eqn:Hlt;
      destruct (decide (maxListeners e < length (set_add l (listeners e event)))%nat);
      try done;
      first [apply Nat.ltb_lt in Hlt | apply Nat.ltb_ge in Hlt]; lia. }
  split.
  { rewrite on_returns. cbn [fst]. do 2 f_equal.
    rewrite Hset, set_add_again. unfold e'. cbn [events].
    by rewrite insert_insert_eq. }
  match goal with |- context [emit h e' event args ?w0] =>
    destruct (emit_outcome h e' event args w0) as [-> ->] end.
  split.
  - rewrite bool_decide_eq_true_2; [done|]. rewrite Hset.
    apply set_add_nonempty.
  - cbn [invoked]. rewrite Hls, map_app. by case_decide.
Qed.

(** [off] and [removeListener] take the listener out of the event and
    leave the other listeners of the event in their order, and the
    other events as they were; the event is no longer among the event
    names once its last listener is gone; an [emit] of the event then
    calls the listeners that are left, not this one.  On an emitter the
    class has built, taking out a listener that is not subscribed
    changes nothing. *)
Theorem off_unsubscribes {U A : Type} (h : handlers U A) (e : emitter)
    (event : string) (l : listener) (args : A) (w : world U A) :
  reachable e ->
  removeListener e event l = off e event l
  /\ (l ∉ listeners (off e event l) event)
  /\ (forall l', l' ∈ listeners (off e event l) event
                 <-> l' ≠ l /\ l' ∈ listeners e event)
  /\ listeners (off e event l) event `sublist_of` listeners e event
  /\ (forall ev, ev ≠ event -> listeners (off e event l) ev = listeners e ev)
  /\ (event ∈ eventNames (off e event l)
      <-> exists l', l' ≠ l /\ l' ∈ listeners e event)
  /\ (l ∉ listeners e event -> off e event l = e)
  /\ ((l, args) ∉ drop (length (invoked w))
                     (invoked (emit h (off e event l) event args w).2))
  /\ reachable (off e event l).
Proof.
  intros Hreach. pose proof (reachable_tidy e Hreach) as Htidy.
  pose proof (listeners_off e event event l) as Hls.
  destruct (decide (event = event)) as [_|]; [|done].
  split; [done|]. split.
  { rewrite Hls, elem_of_set_delete. tauto. }
  split.
  { intros l'. by rewrite Hls, elem_of_set_delete. }
  split.
  { rewrite Hls. apply set_delete_sublist. }
  split.
  { intros ev Hev. rewrite listeners_off. by case_decide. }
  split.
  { unfold eventNames. rewrite elem_of_dom.
    pose proof (tidy_off e event l Htidy) as Htidy'.
    split.
    - intros [ls Hlsome]. destruct (Htidy' event ls Hlsome) as [Hne _].
      assert (Hl' : listeners (off e event l) event = ls)
        by (unfold listeners; by rewrite Hlsome).
      destruct ls as [|l' ls]; [done|]. exists l'.
      apply elem_of_set_delete. rewrite <- Hls, Hl'. by left.
    - intros (l' & Hne & Hin).
      assert (Hin' : l' ∈ listeners (off e event l) event)
        by (rewrite Hls; by apply elem_of_set_delete).
      unfold listeners in Hin'.
      destruct (events (off e event l) !! event) as [ls|]; [eauto|].
      by apply elem_of_nil in Hin'. }
  split; [by apply off_absent|]. split; [|by constructor].
  destruct (emit_outcome h (off e event l) event args w) as [_ ->].
  rewrite drop_app_length, Hls. intros Hin.
  apply list_elem_of_fmap in Hin as (l' & [= <-] & Hin).
  apply elem_of_set_delete in Hin as [Hne _]. done.
Qed.

End SubscriptionProperties.

Section EmitterInvariant.
Import EventEmitter Scenarios.

(** The emitter of the scenarios is one the class builds: three
    subscriptions to the same event. *)
Lemma threeListeners_reachable : reachable threeListeners.
Proof.
  apply (reachable_on (U:=nat) (A:=string)
           {| events := {[ "refund_needed" := [0; 1]%nat ]}; maxListeners := 10 |}
           threeListeners "refund_needed" 2%nat freshWorld freshWorld);
    [|vm_compute; reflexivity].
  apply (reachable_on (U:=nat) (A:=string)
           {| events := {[ "refund_needed" := [0]%nat ]}; maxListeners := 10 |}
           _ "refund_needed" 1%nat freshWorld freshWorld);
    [|vm_compute; reflexivity].
  apply (reachable_on (U:=nat) (A:=string) new_emitter
           _ "refund_needed" 0%nat freshWorld freshWorld);
    [|vm_compute; reflexivity].
  constructor.
Qed.

(** The theorem at the emitter with three listeners, the second of
    which is taken out. *)
Lemma off_unsubscribes_witness :
  listeners (off threeListeners "refund_needed" 1%nat) "refund_needed"
    `sublist_of` [0; 1; 2]%nat
  /\ 1%nat ∉ listeners (off threeListeners "refund_needed" 1%nat) "refund_needed".
Proof.
  pose proof (off_unsubscribes countingHandlers threeListeners "refund_needed"
                1%nat "0x0rder" freshWorld threeListeners_reachable)
    as (_ & Hout & _ & Hsub & _).
  split; [exact Hsub | exact Hout].
Defined.

(** On an emitter the class has built, subscribing a listener that was
    not subscribed and unsubscribing it again gives the emitter back as
    it was.  The other way round does not: a listener that is
    unsubscribed and subscribed again has moved behind the others. *)
Theorem on_off_roundtrip {U A : Type} (e e' : emitter) (event : string)
    (l : listener) (w w' : world U A) :
  reachable e ->
  on e event l w = (Returned e', w') ->
  (l ∉ listeners e event -> off e' event l = e)
  /\ forall (e'' : emitter) (w2 w3 : world U A),
       on (off e event l) event l w2 = (Returned e'', w3) ->
       listeners e'' event = set_delete l (listeners e event) ++ [l].
Proof.
  intros Hreach Hon. pose proof (reachable_tidy e Hreach) as Htidy.
  rewrite on_returns in Hon. inversion Hon as [[He' Hw']]. clear Hon Hw'.
  split.
  - intros Hl. unfold off. cbn [events maxListeners].
    rewrite lookup_insert_eq, set_delete_added by done.
    unfold listeners in *.
    destruct (events e !! event) as [ls|] eqn:Hls; cbn [default] in *.
    + destruct (Htidy event ls Hls) as [Hne _].
      rewrite bool_decide_eq_false_2 by (by destruct ls).
      rewrite insert_insert_eq, insert_id by done. by destruct e.
    + rewrite bool_decide_eq_true_2 by done.
      rewrite delete_insert_eq, delete_id by done. by destruct e.
  - intros e'' w2 w3 Hon2. rewrite on_returns in Hon2.
    inversion Hon2 as [[He'' Hw3]]. rewrite listeners_insert_eq.
    rewrite listeners_off. destruct (decide (event = event)); [|done].
    unfold set_add. rewrite bool_decide_eq_false_2; [done|].
    rewrite elem_of_set_delete. tauto.
Qed.

(** The theorem at the emitter with three listeners and a fourth. *)
Lemma on_off_roundtrip_witness :
  off {| events := {[ "refund_needed" := [0; 1; 2; 3]%nat ]};
         maxListeners := 10 |}
    "refund_needed" 3%nat
  = threeListeners.
Proof.
  refine (proj1 (on_off_roundtrip (U:=nat) (A:=string) threeListeners _
                   "refund_needed" 3%nat freshWorld freshWorld
                   threeListeners_reachable _) _).
  - vm_compute. reflexivity.
  - vm_compute. intros Hin.
    repeat (apply elem_of_cons in Hin as [Hin|Hin]; [discriminate|]).
    by apply elem_of_nil in Hin.
Defined.

(** On every emitter the class builds: no event has a listener twice;
    the event names are the events that have a listener; on those, and
    on no others, [emit] returns [true], having called each listener of
    the event exactly once. *)
Theorem eventNames_have_listeners {U A : Type} (h : handlers U A) (e : emitter)
    (event : string) (args : A) (w : world U A) :
  reachable e ->
  NoDup (listeners e event)
  /\ (event ∈ eventNames e <-> (0 < listenerCount e event)%nat)
  /\ ((emit h e event args w).1 = Returned true <-> event ∈ eventNames e)
  /\ (event ∉ eventNames e -> emit h e event args w = (Returned false, w))
  /\ NoDup (drop (length (invoked w)) (invoked (emit h e event args w).2))
  /\ (forall l, (l, args) ∈ drop (length (invoked w))
                              (invoked (emit h e event args w).2)
                <-> l ∈ listeners e event).
Proof.
  intros Hreach. pose proof (reachable_tidy e Hreach) as Htidy.
  assert (Hnames : event ∈ eventNames e <-> (0 < listenerCount e event)%nat).
  { unfold eventNames, listenerCount, listeners. rewrite elem_of_dom.
    destruct (events e !! event) as [ls|] eqn:Hls; cbn [default].
    - destruct (Htidy event ls Hls) as [Hne _].
      split; [|eauto]. intros _. destruct ls; [done|simpl; lia].
    - split; [by intros [? ?]|simpl; lia]. }
  split; [by apply tidy_listeners|]. split; [exact Hnames|].
  destruct (emit_outcome h e event args w) as [Hres Hinv].
  split.
  { rewrite Hres, Hnames. unfold listenerCount.
    destruct (listeners e event) as [|l ls].
    - rewrite bool_decide_eq_false_2 by (intros Hne; by apply Hne).
      simpl. split; [discriminate|lia].
    - rewrite bool_decide_eq_true_2 by done. simpl. split; [lia|done]. }
  split.
  { unfold eventNames. rewrite not_elem_of_dom. intros Hnone.
    unfold emit. by rewrite Hnone. }
  rewrite Hinv, drop_app_length. split.
  - apply NoDup_fmap_2; [|by apply tidy_listeners].
    intros l1 l2 Heq. by inversion Heq.
  - intros l. rewrite list_elem_of_fmap. split.
    + by intros (l' & [= <-] & Hin).
    + intros Hin. by exists l.
Qed.

(** The theorem at the emitter with three listeners. *)
Lemma eventNames_have_listeners_witness :
  "refund_needed" ∈ eventNames threeListeners
  /\ (emit countingHandlers threeListeners "auction_update" "0x0rder" freshWorld).1
     ≠ Returned true.
Proof.
  pose proof (eventNames_have_listeners countingHandlers threeListeners
                "refund_needed" "0x0rder" freshWorld threeListeners_reachable)
    as (_ & Hnames & _).
  pose proof (eventNames_have_listeners countingHandlers threeListeners
                "auction_update" "0x0rder" freshWorld threeListeners_reachable)
    as (_ & _ & Hemit & _).
  split.
  - apply Hnames. vm_compute. lia.
  - intros Htrue. apply Hemit in Htrue. unfold eventNames in Htrue.
    apply elem_of_dom in Htrue as [ls Hls]. vm_compute in Hls. discriminate.
Defined.

(** [removeAllListeners] with the name of an event takes every listener
    of that event out and leaves the other events alone.  Without a
    name, and with the empty string for a name as well, it takes the
    listeners of every event out.  The limit stays, and an [emit] of an
    event that was cleared calls no one and returns [false]. *)
Theorem removeAllListeners_clears {U A : Type} (h : handlers U A) (e : emitter)
    (event : option string) (args : A) (w : world U A) :
  let e' := removeAllListeners e event in
  getMaxListeners e' = getMaxListeners e
  /\ (forall name, event = Some name -> name ≠ EmptyString ->
        listeners e' name = []
        /\ emit h e' name args w = (Returned false, w)
        /\ forall ev, ev ≠ name -> listeners e' ev = listeners e ev)
  /\ (event = None \/ event = Some EmptyString ->
        eventNames e' = ∅
        /\ forall ev, listeners e' ev = []
                      /\ emit h e' ev args w = (Returned false, w)).
Proof.
  intros e'. subst e'. split; [by destruct event as [name|]; simpl; try case_bool_decide|].
  split.
  - intros name -> Hname. unfold removeAllListeners.
    rewrite bool_decide_eq_false_2 by done.
    split; [|split].
    + rewrite listeners_delete. by case_decide.
    + unfold emit. cbn [events]. by rewrite lookup_delete_eq.
    + intros ev Hev. rewrite listeners_delete. case_decide; [done|].
      by destruct e.
  - intros Hall.
    assert (removeAllListeners e event
            = {| events := ∅; maxListeners := maxListeners e |}) as ->
      by (by destruct Hall as [-> | ->]).
    split; [unfold eventNames; cbn [events]; apply dom_empty_L|].
    intros ev. unfold listeners, emit. cbn [events].
    by rewrite lookup_empty.
Qed.

End EmitterInvariant.

(** ** Listeners that unsubscribe themselves: [once] *)
Section OnceFacts.
Import EventEmitter.

Context {U A : Type}.
Variable h : handlers U A.
Variable event : string.
Variable args : A.

Lemma elem_of_map_Plain (l : listener) (ls : list listener) :
  Once.Plain l ∈ map Once.Plain ls <-> l ∈ ls.
Proof.
  rewrite list_elem_of_fmap. split.
  - by intros (l' & [= <-] & Hin).
  - intros Hin. by exists l.
Qed.

Lemma wrapper_not_plain (n : nat) (ev : string) (f : Once.fn)
    (ls : list listener) :
  Once.OnceWrapper n ev f ∉ map Once.Plain ls.
Proof. rewrite list_elem_of_fmap. by intros (l' & [=] & _). Qed.

Lemma once_set_delete_app (f : Once.fn) (fs1 fs2 : list Once.fn) :
  Once.set_delete f (fs1 ++ fs2) = Once.set_delete f fs1 ++ Once.set_delete f fs2.
Proof. unfold Once.set_delete. apply List.filter_app. Qed.

Lemma once_set_delete_absent (f : Once.fn) (fs : list Once.fn) :
  f ∉ fs -> Once.set_delete f fs = fs.
Proof.
  intros Hf. unfold Once.set_delete. induction fs as [|x fs IH]; [done|].
  apply not_elem_of_cons in Hf as [Hx Hfs]. simpl.
  rewrite bool_decide_eq_false_2 by done. simpl. by rewrite IH.
Qed.

Lemma once_set_delete_self (f : Once.fn) : Once.set_delete f [f] = [].
Proof.
  unfold Once.set_delete. simpl. by rewrite bool_decide_eq_true_2.
Qed.

Lemma once_set_delete_plain (l : listener) (ls : list listener) :
  Once.set_delete (Once.Plain l) (map Once.Plain ls)
  = map Once.Plain (set_delete l ls).
Proof.
  unfold Once.set_delete, set_delete.
  induction ls as [|x ls IH]; [done|]. simpl.
  destruct (decide (x = l)) as [->|Hne].
  - rewrite !bool_decide_eq_true_2 by done. simpl. apply IH.
  - rewrite !bool_decide_eq_false_2 by congruence. simpl. by rewrite IH.
Qed.

(** The listeners of an emitter without wrappers. *)
Lemma listeners_plain (ep : emitter) (made : nat) (ev : string) :
  Once.listeners (Once.plain ep made) ev = map Once.Plain (listeners ep ev).
Proof.
  unfold Once.listeners, Once.plain, listeners. cbn [Once.events].
  rewrite lookup_fmap. by destruct (events ep !! ev).
Qed.

(** The loop of [emit] over listeners of the application: the emitter
    is left as it is, and the world is the one the loop without
    wrappers leaves. *)
Lemma emitLoop_plain (e : Once.emitter) (pending : list listener)
    (w : world U A) :
  (forall l, l ∈ pending -> Once.Plain l ∈ Once.listeners e event) ->
  exists w',
    for_of pending
      (fun l =>
         try_catch (call h l args)
           (fun error => console_write ("Error in event listener for " +:+ event)))
      w
    = (Returned tt, w')
    /\ Once.emitLoop h event args (map Once.Plain pending) e w = (e, w').
Proof.
  revert w. induction pending as [|l pending IH]; intros w Hin.
  - exists w. done.
  - cbn [map Once.emitLoop for_of].
    rewrite bool_decide_eq_true_2 by (apply Hin; by left).
    cbn [Once.invoke]. unfold try_catch at 1.
    destruct (call h l args w) as [[[]|err] w1] eqn:Hcall.
    + destruct (IH w1) as (w' & Hfor & Hloop);
        [intros l' Hl'; apply Hin; by right|].
      exists w'. by rewrite Hfor, Hloop.
    + destruct (console_write ("Error in event listener for " +:+ event) w1)
        as [o w2] eqn:Hcw.
      assert (o = Returned tt) as -> by (unfold console_write in Hcw; congruence).
      cbn [snd].
      destruct (IH w2) as (w' & Hfor & Hloop);
        [intros l' Hl'; apply Hin; by right|].
      exists w'. by rewrite Hfor, Hloop.
Qed.

End OnceFacts.

(** On an emitter without wrappers, [emit] as modelled with [once] is
    [emit] as modelled without. *)
Lemma emit_plain_refines {U A : Type} (h : EventEmitter.handlers U A)
    (ep : EventEmitter.emitter) (made : nat) (event : string) (args : A)
    (w : EventEmitter.world U A) :
  exists b w',
    EventEmitter.emit h ep event args w = (Returned b, w')
    /\ Once.emit h (Once.plain ep made) event args w
       = (b, Once.plain ep made, w').
Proof.
  unfold EventEmitter.emit, Once.emit, Once.plain at 1. cbn [Once.events].
  rewrite lookup_fmap.
  destruct (EventEmitter.events ep !! event) as [ls|] eqn:Hls; cbn [fmap option_fmap option_map].
  - rewrite length_map. case_bool_decide; [by eexists _, _|].
    destruct (emitLoop_plain h event args (Once.plain ep made) ls w)
      as (w' & Hfor & Hloop).
    { intros l Hl. rewrite listeners_plain, elem_of_map_Plain.
      unfold EventEmitter.listeners. by rewrite Hls. }
    rewrite Hfor, Hloop. by eexists _, _.
  - by eexists _, _.
Qed.

Section OnceProperties.
Import EventEmitter.

Context {U A : Type}.
Variable h : handlers U A.

Lemma emitLoop_app (event : string) (args : A) (p1 p2 : list Once.fn)
    (e : Once.emitter) (w : world U A) :
  Once.emitLoop h event args (p1 ++ p2) e w
  = Once.emitLoop h event args p2
      (Once.emitLoop h event args p1 e w).1
      (Once.emitLoop h event args p1 e w).2.
Proof.
  revert e w. induction p1 as [|f p1 IH]; intros e w; [done|].
  cbn [app Once.emitLoop]. case_bool_decide; [|apply IH].
  destruct (Once.invoke h f args e w) as [[[[]|err] e'] w']; apply IH.
Qed.

(** The emitter after [on] of the model with wrappers, whether or not
    it warns. *)
Lemma once_on_emitter (e : Once.emitter) (event : string) (f : Once.fn)
    (w : world U A) :
  (Once.on e event f w).1
  = Once.with_events e
      (<[event := Once.set_add f (Once.listeners e event)]> (Once.events e)).
Proof.
  unfold Once.on. fold (Once.listeners e event). by case_match.
Qed.

Lemma once_on_world (e : Once.emitter) (event : string) (f : Once.fn)
    (w : world U A) :
  user (Once.on e event f w).2 = user w
  /\ invoked (Once.on e event f w).2 = invoked w.
Proof. unfold Once.on. by case_match. Qed.

Lemma once_set_add_new (f : Once.fn) (fs : list Once.fn) :
  f ∉ fs -> Once.set_add f fs = fs ++ [f].
Proof. intros Hf. unfold Once.set_add. by rewrite bool_decide_eq_false_2. Qed.

(** The emitter after [once] of a listener on an emitter without
    wrappers. *)
Lemma once_plain_emitter (ep : emitter) (made : nat) (event : string)
    (l : listener) (w : world U A) :
  (Once.once (Once.plain ep made) event (Once.Plain l) w).1
  = {| Once.events :=
         <[event := map Once.Plain (listeners ep event)
                    ++ [Once.OnceWrapper made event (Once.Plain l)]]>
           (Once.events (Once.plain ep made));
       Once.maxListeners := maxListeners ep;
       Once.wrappersMade := S made |}.
Proof.
  unfold Once.once. rewrite once_on_emitter. unfold Once.with_events.
  cbn [Once.events Once.maxListeners Once.wrappersMade Once.plain].
  f_equal. f_equal.
  change (Once.listeners _ event)
    with (Once.listeners (Once.plain ep (S made)) event).
  rewrite listeners_plain. apply once_set_add_new, wrapper_not_plain.
Qed.

(** The world after the listeners of the application have been called
    is the one [emit] without wrappers leaves. *)
Lemma for_of_emit_world (ep : emitter) (event : string) (args : A)
    (w w' : world U A) :
  for_of (listeners ep event)
    (fun l =>
       try_catch (call h l args)
         (fun error => console_write ("Error in event listener for " +:+ event)))
    w
  = (Returned tt, w') ->
  (emit h ep event args w).2 = w'.
Proof.
  unfold emit, listeners.
  destruct (events ep !! event) as [ls|]; simpl.
  - destruct ls as [|l ls]; [by intros [= <-]|].
    rewrite bool_decide_eq_false_2 by done. by intros ->.
  - by intros [= <-].
Qed.

End OnceProperties.

(** [once(event, listener)] subscribes a wrapper behind the listeners
    of the event.  At the next [emit] of the event the listener is
    called after them, with the arguments of the call.  When it
    returns, the wrapper has unsubscribed itself and the emitter is as
    it was before [once]; when it throws, the error is written to the
    console like that of any listener, and the wrapper is still
    subscribed: the listener will be called again. *)
Theorem once_fires_once {U A : Type} (h : EventEmitter.handlers U A)
    (ep : EventEmitter.emitter) (made : nat) (event : string)
    (l : EventEmitter.listener) (args : A) (w : EventEmitter.world U A) :
  EventEmitter.reachable ep ->
  let wrapper := Once.OnceWrapper made event (Once.Plain l) in
  let e1 := (Once.once (Once.plain ep made) event (Once.Plain l) w).1 in
  let w1 := (Once.once (Once.plain ep made) event (Once.Plain l) w).2 in
  let w2 := (EventEmitter.emit h ep event args w1).2 in
  let r := h l args (EventEmitter.user w2) in
  Once.listeners e1 event
  = map Once.Plain (EventEmitter.listeners ep event) ++ [wrapper]
  /\ exists e2 w3,
       Once.emit h e1 event args w1 = (true, e2, w3)
       /\ EventEmitter.invoked w3 = EventEmitter.invoked w2 ++ [(l, args)]
       /\ EventEmitter.user w3 = r.2
       /\ match r.1 with
          | Returned _ =>
              e2 = Once.plain ep (S made)
              /\ EventEmitter.console w3 = EventEmitter.console w2
          | Thrown _ =>
              e2 = e1
              /\ EventEmitter.console w3
                 = EventEmitter.console w2
                   ++ ["Error in event listener for " +:+ event]
          end.
Proof.
  intros Hreach wrapper e1 w1 w2 r.
  pose proof (reachable_tidy ep Hreach) as Htidy.
  assert (He1 : e1 = {| Once.events :=
                          <[event := map Once.Plain (EventEmitter.listeners ep event)
                                     ++ [wrapper]]>
                            (Once.events (Once.plain ep made));
                        Once.maxListeners := EventEmitter.maxListeners ep;
                        Once.wrappersMade := S made |})
    by apply once_plain_emitter.
  assert (Hls : Once.listeners e1 event
                = map Once.Plain (EventEmitter.listeners ep event) ++ [wrapper]).
  { rewrite He1. unfold Once.listeners. cbn [Once.events].
    by rewrite lookup_insert_eq. }
  split; [exact Hls|].
  destruct (emitLoop_plain h event args e1 (EventEmitter.listeners ep event) w1)
    as (w2' & Hfor & Hloop).
  { intros l' Hl'. rewrite Hls, elem_of_app, elem_of_map_Plain. by left. }
  assert (Hw2 : w2 = w2') by (by apply for_of_emit_world).
  unfold Once.emit.
  assert (Hlook : Once.events e1 !! event
                  = Some (map Once.Plain (EventEmitter.listeners ep event)
                          ++ [wrapper])).
  { rewrite He1. cbn [Once.events]. by rewrite lookup_insert_eq. }
  rewrite Hlook.
  rewrite bool_decide_eq_false_2
    by (rewrite length_app; cbn [length]; lia).
  rewrite emitLoop_app, Hloop. cbn [fst snd Once.emitLoop].
  rewrite Hlook. cbn [default from_option id].
  rewrite bool_decide_eq_true_2
    by (rewrite elem_of_app, list_elem_of_singleton; by right).
  unfold wrapper at 1. cbn [Once.invoke]. unfold EventEmitter.call.
  subst w2'. fold r. destruct r as [[[]|err] u] eqn:Hr; cbn [fst snd].
  - eexists _, _. split; [reflexivity|]. cbn [EventEmitter.invoked
      EventEmitter.user EventEmitter.console].
    split; [done|]. split; [done|]. split; [|done].
    unfold Once.removeListener, Once.off. rewrite Hlook.
    rewrite once_set_delete_app, once_set_delete_self, app_nil_r.
    rewrite once_set_delete_absent by apply wrapper_not_plain.
    unfold Once.with_events, Once.plain. rewrite He1.
    cbn [Once.events Once.maxListeners Once.wrappersMade]. f_equal.
    unfold EventEmitter.listeners.
    destruct (EventEmitter.events ep !! event) as [ls|] eqn:Hep; cbn [default from_option id].
    + destruct (Htidy event ls Hep) as [Hne _].
      rewrite bool_decide_eq_false_2
        by (rewrite length_map; by destruct ls).
      rewrite insert_insert_eq. apply insert_id.
      by rewrite lookup_fmap, Hep.
    + rewrite bool_decide_eq_true_2 by done.
      rewrite delete_insert_eq. apply delete_id.
      by rewrite lookup_fmap, Hep.
  - eexists _, _. split; [reflexivity|]. by cbn.
Qed.

(** The theorem at the emitter with three listeners, for a fourth
    subscribed with [once]. *)
Lemma once_fires_once_witness :
  exists e2 w3,
    Once.emit Scenarios.countingHandlers
      (Once.once (Once.plain Scenarios.threeListeners 0) "refund_needed"
         (Once.Plain 3%nat) Scenarios.freshWorld).1
      "refund_needed" "0x0rder" Scenarios.freshWorld
    = (true, e2, w3)
    /\ EventEmitter.invoked w3
       = [(0%nat, "0x0rder"); (1%nat, "0x0rder"); (2%nat, "0x0rder");
          (3%nat, "0x0rder")].
Proof.
  destruct (once_fires_once Scenarios.countingHandlers Scenarios.threeListeners
              0 "refund_needed" 3%nat "0x0rder" Scenarios.freshWorld
              threeListeners_reachable)
    as (_ & e2 & w3 & Hemit & Hinvoked & _).
  exists e2, w3. split; [exact Hemit|]. rewrite Hinvoked. reflexivity.
Defined.

(** A subscription made with [once] is not one of the listener itself:
    [off] with the listener leaves the wrapper subscribed, and takes
    out no more than a subscription of the listener made with [on];
    and [once] with the same listener again subscribes a second
    wrapper, so that the next [emit] of the event calls the listener
    twice. *)
Theorem once_registrations_apart {U A : Type} (h : EventEmitter.handlers U A)
    (ep : EventEmitter.emitter) (made : nat) (event : string)
    (l : EventEmitter.listener) (args : A) (w w' : EventEmitter.world U A) :
  let first := Once.OnceWrapper made event (Once.Plain l) in
  let second := Once.OnceWrapper (S made) event (Once.Plain l) in
  let e1 := (Once.once (Once.plain ep made) event (Once.Plain l) w).1 in
  let e2 := (Once.once e1 event (Once.Plain l) w').1 in
  let w2 := (EventEmitter.emit h ep event args w').2 in
  Once.listeners (Once.off e1 event (Once.Plain l)) event
  = map Once.Plain (EventEmitter.set_delete l (EventEmitter.listeners ep event))
    ++ [first]
  /\ Once.listeners e2 event
     = map Once.Plain (EventEmitter.listeners ep event) ++ [first; second]
  /\ exists e3 w3,
       Once.emit h e2 event args w' = (true, e3, w3)
       /\ EventEmitter.invoked w3
          = EventEmitter.invoked w2 ++ [(l, args); (l, args)].
Proof.
  intros first second e1 e2 w2.
  set (ls := EventEmitter.listeners ep event).
  assert (He1 : e1 = {| Once.events :=
                          <[event := map Once.Plain ls ++ [first]]>
                            (Once.events (Once.plain ep made));
                        Once.maxListeners := EventEmitter.maxListeners ep;
                        Once.wrappersMade := S made |})
    by apply once_plain_emitter.
  assert (Hl1 : Once.listeners e1 event = map Once.Plain ls ++ [first]).
  { rewrite He1. unfold Once.listeners. cbn [Once.events].
    by rewrite lookup_insert_eq. }
  assert (Hnew : second ∉ map Once.Plain ls ++ [first]).
  { rewrite elem_of_app, list_elem_of_singleton.
    intros [Hin|Heq]; [by apply wrapper_not_plain in Hin|].
    inversion Heq. lia. }
  assert (He2 : e2 = Once.with_events
                       {| Once.events := Once.events e1;
                          Once.maxListeners := Once.maxListeners e1;
                          Once.wrappersMade := S (Once.wrappersMade e1) |}
                       (<[event := map Once.Plain ls ++ [first; second]]>
                          (Once.events e1))).
  { unfold e2, Once.once. rewrite once_on_emitter. f_equal.
    cbn [Once.events]. f_equal.
    change (Once.listeners _ event) with (Once.listeners e1 event).
    rewrite Hl1.
    replace (Once.wrappersMade e1) with (S made) by (by rewrite He1).
    fold second. rewrite once_set_add_new by done.
    by rewrite <- app_assoc. }
  assert (Hlook : Once.events e2 !! event
                  = Some (map Once.Plain ls ++ [first; second])).
  { rewrite He2. unfold Once.with_events. cbn [Once.events].
    by rewrite lookup_insert_eq. }
  split; [|split].
  - unfold Once.off.
    assert (Hlook1 : Once.events e1 !! event
                     = Some (map Once.Plain ls ++ [first])).
    { rewrite He1. cbn [Once.events]. by rewrite lookup_insert_eq. }
    rewrite Hlook1.
    rewrite once_set_delete_app, once_set_delete_plain.
    rewrite (once_set_delete_absent (Once.Plain l) [first])
      by (rewrite list_elem_of_singleton; discriminate).
    rewrite bool_decide_eq_false_2
      by (rewrite length_app; cbn [length]; lia).
    unfold Once.listeners, Once.with_events. cbn [Once.events].
    by rewrite lookup_insert_eq.
  - unfold Once.listeners. by rewrite Hlook.
  - destruct (emitLoop_plain h event args e2 ls w') as (w2' & Hfor & Hloop).
    { intros l' Hl'. unfold Once.listeners. rewrite Hlook.
      cbn [default from_option id]. rewrite elem_of_app, elem_of_map_Plain.
      by left. }
    assert (Hw2 : w2 = w2') by (by apply for_of_emit_world).
    unfold Once.emit. rewrite Hlook.
    rewrite bool_decide_eq_false_2
      by (rewrite length_app; cbn [length]; lia).
    rewrite emitLoop_app, Hloop. cbn [fst snd Once.emitLoop].
    rewrite Hlook. cbn [default from_option id].
    rewrite bool_decide_eq_true_2
      by (rewrite elem_of_app, !elem_of_cons; right; by left).
    unfold first at 1. cbn [Once.invoke]. unfold EventEmitter.call at 1.
    subst w2'.
    destruct (h l args (EventEmitter.user w2)) as [[[]|err1] u1].
    + assert (Hoff : Once.events (Once.removeListener e2 event first) !! event
                     = Some (map Once.Plain ls ++ [second])).
      { unfold Once.removeListener, Once.off. rewrite Hlook.
        rewrite once_set_delete_app.
        rewrite once_set_delete_absent by apply wrapper_not_plain.
        change [first; second] with ([first] ++ [second]).
        rewrite once_set_delete_app, once_set_delete_self.
        rewrite (once_set_delete_absent first [second])
          by (rewrite list_elem_of_singleton; intros Heq; inversion Heq; lia).
        cbn [app].
        rewrite bool_decide_eq_false_2
          by (rewrite length_app; cbn [length]; lia).
        unfold Once.with_events. cbn [Once.events].
        by rewrite lookup_insert_eq. }
      fold first. rewrite Hoff. cbn [default from_option id].
      rewrite bool_decide_eq_true_2
        by (rewrite elem_of_app, list_elem_of_singleton; by right).
      unfold second at 1. cbn [Once.invoke]. unfold EventEmitter.call at 1.
      cbn [EventEmitter.user EventEmitter.invoked EventEmitter.console].
      destruct (h l args u1) as [[[]|err2] u2];
        eexists _, _; (split; [reflexivity|]);
        cbn [EventEmitter.invoked EventEmitter.console_write snd];
        by rewrite <- app_assoc.
    + cbn [EventEmitter.console_write snd].
      rewrite Hlook. cbn [default from_option id].
      rewrite bool_decide_eq_true_2
        by (rewrite elem_of_app, !elem_of_cons; right; right; by left).
      unfold second at 1. cbn [Once.invoke]. unfold EventEmitter.call at 1.
      cbn [EventEmitter.user EventEmitter.invoked EventEmitter.console].
      destruct (h l args u1) as [[[]|err2] u2];
        eexists _, _; (split; [reflexivity|]);
        cbn [EventEmitter.invoked EventEmitter.console_write snd];
        by rewrite <- app_assoc.
Qed.

(** ** The ticks of the tracker's timers *)
Section Ticks.
Import FusionAuctionTracker Scenarios.





End Ticks.

(** ** Stopping an order *)


(** ** Stopping every order *)
Section StopAll.
Import FusionAuctionTracker Scenarios.


End StopAll.


(** ** The resolver of an order *)
Section Resolver.
Import FusionAuctionTracker Scenarios.


End Resolver.


(** ** The target chain of a transfer *)
Section Targets.
Import WormholeBridge Scenarios.

Lemma getChainName_unsupported (chainId : Z) :
  chainId ∉ getSupportedChains -> getChainName chainId = "ethereum".
Proof.
  rewrite supported_cases. intros Hno. unfold getChainName.
  repeat case_decide; try done; exfalso; apply Hno; tauto.
Qed.

End Targets.

(** [getChainName] gives a chain that is not supported the name of
    Ethereum, and so the Wormhole chain id 2 of chain 1.  The six
    supported chains have six names, and the Wormhole chain ids 2, 4,
    5, 23, 24 and 30, each its own. *)
Theorem getChainName_falls_back (chainId : Z) :
  (chainId ∉ WormholeBridge.getSupportedChains ->
   WormholeBridge.getChainName chainId = "ethereum"
   /\ WormholeBridge.CHAIN_IDS (WormholeBridge.getChainName chainId)
      = WormholeBridge.CHAIN_IDS (WormholeBridge.getChainName 1))
  /\ (exists z,
        WormholeBridge.CHAIN_IDS (WormholeBridge.getChainName chainId) = num z
        /\ z ∈ [2; 4; 5; 23; 24; 30])
  /\ (forall other,
        chainId ∈ WormholeBridge.getSupportedChains ->
        other ∈ WormholeBridge.getSupportedChains ->
        WormholeBridge.CHAIN_IDS (WormholeBridge.getChainName chainId)
        = WormholeBridge.CHAIN_IDS (WormholeBridge.getChainName other) ->
        chainId = other).
Proof.
  split; [|split].
  - intros Hno. by rewrite getChainName_unsupported.
  - destruct (decide (chainId ∈ WormholeBridge.getSupportedChains)) as [Hin|Hno].
    + apply supported_cases in Hin.
      destruct Hin as [->|[->|[->|[->|[->| ->]]]]];
        eexists; (split; [vm_compute; reflexivity|]); set_solver.
    + rewrite getChainName_unsupported by done.
      eexists; (split; [vm_compute; reflexivity|]); set_solver.
  - intros other Hin Hother.
    apply supported_cases in Hin, Hother.
    destruct Hin as [->|[->|[->|[->|[->| ->]]]]];
      destruct Hother as [->|[->|[->|[->|[->| ->]]]]];
      vm_compute; intros H; try done; discriminate.
Qed.

(** ** The limit of listeners *)

(** [setMaxListeners] sets what [getMaxListeners] returns and leaves
    the listeners alone; nothing is unsubscribed when the limit is
    lowered.  The limit only decides the warning of [on]: after
    [setMaxListeners(n)], [on] warns exactly when the event has more
    than [n] listeners once the call is done, so that with the limit 0
    every call of [on] warns. *)
Theorem setMaxListeners_limits {U A : Type} (e : EventEmitter.emitter)
    (n : nat) (event : string) (l : EventEmitter.listener)
    (w : EventEmitter.world U A) :
  let e0 := EventEmitter.setMaxListeners e n in
  EventEmitter.getMaxListeners e0 = n
  /\ (forall ev, EventEmitter.listeners e0 ev = EventEmitter.listeners e ev)
  /\ EventEmitter.eventNames e0 = EventEmitter.eventNames e
  /\ (exists e',
        (EventEmitter.on e0 event l w).1 = Returned e'
        /\ EventEmitter.getMaxListeners e' = n
        /\ EventEmitter.console (EventEmitter.on e0 event l w).2
           = EventEmitter.console w
             ++ (if decide (n < EventEmitter.listenerCount e' event)%nat
                 then [EventEmitter.maxListenersWarning
                         (EventEmitter.listenerCount e' event) event]
                 else [])
        /\ (n = 0%nat ->
            EventEmitter.console (EventEmitter.on e0 event l w).2
            = EventEmitter.console w
              ++ [EventEmitter.maxListenersWarning
                    (EventEmitter.listenerCount e' event) event])).
Proof.
  intros e0. split; [done|]. split; [done|]. split; [done|].
  rewrite on_returns. eexists. split; [reflexivity|]. split; [done|].
  cbn [snd EventEmitter.console]. unfold EventEmitter.listenerCount.
  rewrite listeners_insert_eq.
  change (EventEmitter.maxListeners e0) with n.
  set (ls := EventEmitter.set_add l (EventEmitter.listeners e0 event)).
  assert (Hne : (0 < length ls)%nat).
  { pose proof (set_add_nonempty l (EventEmitter.listeners e0 event)).
    fold ls in H. destruct ls; [done|simpl; lia]. }
  split.
  - destruct (n <? length ls)%nat eqn:Hlt; destruct (decide (n < length ls)%nat);
      try done; first [apply Nat.ltb_lt in Hlt | apply Nat.ltb_ge in Hlt]; lia.
  - intros ->. destruct ls; [simpl in Hne; lia|done].
Qed.

